(** * Rational Speech Acts by exact enumeration

    A shallow embedding of the two notebooks that compute the vanilla RSA
    model: the expository notebook, whose pragmatic stages carry
    stabilisation constants (module [Tutorial]), and [intro-to-rsa.ipynb],
    whose pragmatic stages carry none (module [Intro]).  The two share the
    world model, [meaning], [normalize_rows] and [literal_listener], cell
    for cell; they differ in [pragmatic_speaker] and [pragmatic_listener].

    Numbers.  The notebooks compute with NumPy doubles.  Here a number is a
    real number or one of the three IEEE special values, and every NumPy
    operation is given its IEEE meaning on the special values (the logarithm
    of zero is minus infinity, zero divided by zero is NaN, zero times an
    infinity is NaN, ...).  Zero stands for the positive zero; the notebooks
    only ever divide by a sum of counts, exponentials or quotients of such,
    which is never a negative zero.

    Two arithmetics on the finite numbers.  The stages are first given over
    exact arithmetic, where nothing is rounded and nothing overflows.  The
    module [Generic] then gives the same cells over an arithmetic that is a
    parameter, and [double_range] is the arithmetic that confines every
    result to the range of doubles: beyond the largest double a result
    becomes an infinity, below half the smallest it becomes zero.  Rounding
    inside the range is not modelled by either.  Exact arithmetic is faithful
    to the notebooks only while no intermediate result leaves the range of
    doubles: statements that depend on the size of [alpha] carry a bound on
    it ([moderate]).  On the world of the notebooks, double-range arithmetic
    is shown to return what exact arithmetic returns for every [alpha] from
    1 to 30, and to return distributions for every moderate [alpha]; what
    happens beyond the bound is stated over [double_range].

    Errors.  A Python exception is a value [Raise e]; the computations live
    in the error monad [result].

    The world.  [objects] and [utterances] are globals of the notebooks; the
    stages take them as parameters here, so that worlds other than the one
    of the notebooks can be asked about. *)

From Stdlib Require Import Reals Lra List String Bool Arith Lia.
Import ListNotations.

Open Scope string_scope.
Open Scope R_scope.

(** ** Numbers *)

Inductive value : Type :=
| Finite (r : R)
| PosInf
| NegInf
| NaN.

Definition Rsign (x : R) : comparison :=
  match total_order_T x 0 with
  | inleft (left _) => Lt
  | inleft (right _) => Eq
  | inright _ => Gt
  end.

(** [x + y] *)
Definition fadd (x y : value) : value :=
  match x, y with
  | NaN, _ | _, NaN => NaN
  | Finite a, Finite b => Finite (a + b)
  | PosInf, NegInf | NegInf, PosInf => NaN
  | PosInf, _ | _, PosInf => PosInf
  | NegInf, _ | _, NegInf => NegInf
  end.

(** [x * y] *)
Definition fmul (x y : value) : value :=
  match x, y with
  | NaN, _ | _, NaN => NaN
  | Finite a, Finite b => Finite (a * b)
  | Finite a, PosInf | PosInf, Finite a =>
      match Rsign a with Gt => PosInf | Lt => NegInf | Eq => NaN end
  | Finite a, NegInf | NegInf, Finite a =>
      match Rsign a with Gt => NegInf | Lt => PosInf | Eq => NaN end
  | PosInf, PosInf | NegInf, NegInf => PosInf
  | PosInf, NegInf | NegInf, PosInf => NegInf
  end.

(** [x / y]; NumPy warns on a zero divisor and returns NaN or an infinity. *)
Definition fdiv (x y : value) : value :=
  match x, y with
  | NaN, _ | _, NaN => NaN
  | Finite a, Finite b =>
      match Rsign b with
      | Eq => match Rsign a with Eq => NaN | Gt => PosInf | Lt => NegInf end
      | _ => Finite (a / b)
      end
  | Finite _, (PosInf | NegInf) => Finite 0
  | PosInf, Finite b => match Rsign b with Lt => NegInf | _ => PosInf end
  | NegInf, Finite b => match Rsign b with Lt => PosInf | _ => NegInf end
  | (PosInf | NegInf), (PosInf | NegInf) => NaN
  end.

(** [np.log]; NumPy warns on zero and returns minus infinity. *)
Definition flog (x : value) : value :=
  match x with
  | Finite a =>
      match Rsign a with Gt => Finite (ln a) | Eq => NegInf | Lt => NaN end
  | PosInf => PosInf
  | NegInf | NaN => NaN
  end.

(** [np.exp] *)
Definition fexp (x : value) : value :=
  match x with
  | Finite a => Finite (exp a)
  | PosInf => PosInf
  | NegInf => Finite 0
  | NaN => NaN
  end.

(** ** Exceptions *)

Inductive exn : Type :=
| KeyError (key : string)
| AxisError.

Inductive result (A : Type) : Type :=
| Ok (a : A)
| Raise (e : exn).
Arguments Ok {A} a.
Arguments Raise {A} e.

Definition bind {A B : Type} (m : result A) (k : A -> result B) : result B :=
  match m with
  | Ok a => k a
  | Raise e => Raise e
  end.

Notation "x <- m ;; k" := (bind m (fun x => k))
  (at level 61, m at next level, right associativity).
Notation "' p <- m ;; k" := (bind m (fun p => k))
  (at level 61, p pattern, m at next level, right associativity).

(** A [for] loop that appends one result per element to a list. *)
Fixpoint for_each {A B : Type} (f : A -> result B) (l : list A)
  : result (list B) :=
  match l with
  | [] => Ok []
  | a :: l' => b <- f a ;; bs <- for_each f l' ;; Ok (b :: bs)
  end.

(** ** Arrays, frames and series *)

Definition matrix : Type := list (list value).

(** What [np.array] makes of a list of rows: no row at all gives a
    one-dimensional empty array. *)
Inductive ndarray : Type :=
| Arr1 (v : list value)
| Arr2 (m : matrix).

Definition np_array (rows : list (list value)) : ndarray :=
  match rows with
  | [] => Arr1 []
  | _ :: _ => Arr2 rows
  end.

Definition column (j : nat) (m : matrix) : list value :=
  map (fun row => nth j row NaN) m.

(** [a.T]; the two-dimensional arrays transposed here have a first row. *)
Definition T (a : ndarray) : ndarray :=
  match a with
  | Arr1 v => Arr1 v
  | Arr2 m => Arr2 (map (fun j => column j m) (seq 0 (List.length (hd [] m))))
  end.

Record Series : Type := {
  values : list value;   (* the data *)
  labels : list string;  (* the index of the series *)
  name : string
}.

Record DataFrame : Type := {
  data : matrix;
  columns : list string;
  index : list string
}.

Fixpoint position (key : string) (l : list string) : option nat :=
  match l with
  | [] => None
  | k :: l' =>
      if String.eqb key k then Some O
      else option_map S (position key l')
  end.

(** [df.loc[key]] on a frame whose index labels are pairwise different:
    the row of that label as a series, or [KeyError].  (With a label that
    occurs twice pandas returns a frame, not a series; statements about
    arbitrary worlds therefore assume [well_formed] below.) *)
Definition loc (df : DataFrame) (key : string) : result Series :=
  match position key (index df) with
  | Some i => Ok {| values := nth i (data df) [];
                    labels := columns df;
                    name := key |}
  | None => Raise (KeyError key)
  end.

(** [np.sum(row)], from the left. *)
Definition np_sum (row : list value) : value :=
  fold_left fadd row (Finite 0).

(** ** The world model and the code the two notebooks share *)

(** An object of the world: a dictionary with the keys ["color"], ["shape"]
    and ["string"], the last one being the label it is displayed under. *)
Module Obj.
Record t : Type := { color : string; shape : string; string : String.string }.
End Obj.

Definition meaning (obj : Obj.t) (utt : string) : bool :=
  String.eqb utt (Obj.color obj) || String.eqb utt (Obj.shape obj).

Definition normalize_rows (a : ndarray) : result matrix :=
  match a with
  | Arr1 _ => Raise AxisError   (* np.sum(_, axis=1) on one dimension *)
  | Arr2 m =>
      let totals := map np_sum m in
      Ok (map (fun '(row, total) => map (fun x => fdiv x total) row)
              (combine m totals))
  end.

Section World.

Variable objects : list Obj.t.
Variable utterances : list string.

(** The two nested loops of [literal_listener], over a matrix of zeros. *)
Definition all_counts : matrix :=
  map (fun curr_utt =>
         map (fun curr_obj =>
                if meaning curr_obj curr_utt then Finite 1 else Finite 0)
             objects)
      utterances.

Definition literal_listener (utt : string) : result (DataFrame * Series) :=
  data <- normalize_rows (Arr2 all_counts) ;;
  let df_cols := map Obj.string objects in
  let df := {| data := data; columns := df_cols; index := utterances |} in
  probs <- loc df utt ;;
  Ok (df, probs).

End World.

(** ** The expository notebook *)

Module Tutorial.
Section World.

Variable objects : list Obj.t.
Variable utterances : list string.

(** The [epsilon] of [pragmatic_speaker]. *)
Definition speaker_epsilon : R := 0.000000001.

(** The loop of [pragmatic_speaker]: [all_vals] when it ends. *)
Definition speaker_vals (alpha : R) : result (list (list value)) :=
  for_each (fun curr_utt =>
              '(_, probs) <- literal_listener objects utterances curr_utt ;;
              let utility := values probs in
              Ok (map (fun p => fexp (fmul (Finite alpha)
                                        (flog (fadd p (Finite speaker_epsilon)))))
                      utility))
           utterances.

Definition pragmatic_speaker (obj : Obj.t) (alpha : R)
  : result (DataFrame * Series) :=
  all_vals <- speaker_vals alpha ;;
  data <- normalize_rows (T (np_array all_vals)) ;;
  let df_idx := map Obj.string objects in
  let df := {| data := data; columns := utterances; index := df_idx |} in
  probs <- loc df (Obj.string obj) ;;
  Ok (df, probs).

(** The [epsilon] of [pragmatic_listener]. *)
Definition listener_epsilon : R := 0.0000001.

(** The loop of [pragmatic_listener]; [alpha] is left to its default. *)
Definition listener_vals : result (list (list value)) :=
  for_each (fun curr_obj =>
              '(_, probs) <- pragmatic_speaker curr_obj 1 ;;
              Ok (map (fun p => fadd p (Finite listener_epsilon))
                      (values probs)))
           objects.

Definition pragmatic_listener (utt : string) : result (DataFrame * Series) :=
  all_vals <- listener_vals ;;
  data <- normalize_rows (T (np_array all_vals)) ;;
  let df_cols := map Obj.string objects in
  let df := {| data := data; columns := df_cols; index := utterances |} in
  probs <- loc df utt ;;
  Ok (df, probs).

End World.
End Tutorial.

(** ** [intro-to-rsa.ipynb] *)

Module Intro.
Section World.

Variable objects : list Obj.t.
Variable utterances : list string.

Definition speaker_vals (alpha : R) : result (list (list value)) :=
  for_each (fun curr_utt =>
              '(_, probs) <- literal_listener objects utterances curr_utt ;;
              let utility := values probs in
              Ok (map (fun p => fexp (fmul (Finite alpha) (flog p)))
                      utility))
           utterances.

Definition pragmatic_speaker (obj : Obj.t) (alpha : R)
  : result (DataFrame * Series) :=
  all_vals <- speaker_vals alpha ;;
  data <- normalize_rows (T (np_array all_vals)) ;;
  let df_idx := map Obj.string objects in
  let df := {| data := data; columns := utterances; index := df_idx |} in
  probs <- loc df (Obj.string obj) ;;
  Ok (df, probs).

Definition listener_vals : result (list (list value)) :=
  for_each (fun curr_obj =>
              '(_, probs) <- pragmatic_speaker curr_obj 1 ;;
              Ok (values probs))
           objects.

Definition pragmatic_listener (utt : string) : result (DataFrame * Series) :=
  all_vals <- listener_vals ;;
  data <- normalize_rows (T (np_array all_vals)) ;;
  let df_cols := map Obj.string objects in
  let df := {| data := data; columns := df_cols; index := utterances |} in
  probs <- loc df utt ;;
  Ok (df, probs).

End World.
End Intro.

(** ** The world of the notebooks *)

Definition blue_square : Obj.t :=
  {| Obj.color := "blue"; Obj.shape := "square";
     Obj.string := "blue square" |}.

Definition blue_circle : Obj.t :=
  {| Obj.color := "blue"; Obj.shape := "circle";
     Obj.string := "blue circle" |}.

Definition green_square : Obj.t :=
  {| Obj.color := "green"; Obj.shape := "square";
     Obj.string := "green square" |}.

Definition objects : list Obj.t := [blue_square; blue_circle; green_square].
Definition utterances : list string := ["blue"; "green"; "square"; "circle"].

(** The same utterances and one more, which is true of no object. *)
Definition utterances_red : list string :=
  ["blue"; "green"; "square"; "circle"; "red"].

(** ** Vocabulary of the statements *)

Inductive notebook : Type := tutorial | intro.

Inductive query : Type :=
| LiteralListener (utt : string)
| PragmaticSpeaker (obj : Obj.t) (alpha : R)
| PragmaticListener (utt : string).

Section Queries.

Variable nb : notebook.
Variable objects : list Obj.t.
Variable utterances : list string.

Definition run (q : query) : result (DataFrame * Series) :=
  match q, nb with
  | LiteralListener utt, _ => literal_listener objects utterances utt
  | PragmaticSpeaker obj alpha, tutorial =>
      Tutorial.pragmatic_speaker objects utterances obj alpha
  | PragmaticSpeaker obj alpha, intro =>
      Intro.pragmatic_speaker objects utterances obj alpha
  | PragmaticListener utt, tutorial =>
      Tutorial.pragmatic_listener objects utterances utt
  | PragmaticListener utt, intro =>
      Intro.pragmatic_listener objects utterances utt
  end.

(** The label a query asks for, and the labels of the rows of its table. *)
Definition key (q : query) : string :=
  match q with
  | LiteralListener utt | PragmaticListener utt => utt
  | PragmaticSpeaker obj _ => Obj.string obj
  end.

Definition row_labels (q : query) : list string :=
  match q with
  | PragmaticSpeaker _ _ => map Obj.string objects
  | _ => utterances
  end.

Definition column_labels (q : query) : list string :=
  match q with
  | PragmaticSpeaker _ _ => utterances
  | _ => map Obj.string objects
  end.

Definition registered (q : query) : Prop := In (key q) (row_labels q).

(** The array that the stage hands to [normalize_rows]. *)
Definition before_normalization (q : query) : result ndarray :=
  match q, nb with
  | LiteralListener _, _ => Ok (Arr2 (all_counts objects utterances))
  | PragmaticSpeaker _ alpha, tutorial =>
      all_vals <- Tutorial.speaker_vals objects utterances alpha ;;
      Ok (T (np_array all_vals))
  | PragmaticSpeaker _ alpha, intro =>
      all_vals <- Intro.speaker_vals objects utterances alpha ;;
      Ok (T (np_array all_vals))
  | PragmaticListener _, tutorial =>
      all_vals <- Tutorial.listener_vals objects utterances ;;
      Ok (T (np_array all_vals))
  | PragmaticListener _, intro =>
      all_vals <- Intro.listener_vals objects utterances ;;
      Ok (T (np_array all_vals))
  end.

(** Its row for the label the query asks for. *)
Definition row_before_normalization (q : query) : result (list value) :=
  a <- before_normalization q ;;
  match a, position (key q) (row_labels q) with
  | Arr2 m, Some i => Ok (nth i m [])
  | Arr1 _, _ => Raise AxisError
  | _, None => Raise (KeyError (key q))
  end.

End Queries.

(** Two queries to the same stage (and, for the speaker, the same [alpha]). *)
Definition same_stage (q1 q2 : query) : Prop :=
  match q1, q2 with
  | LiteralListener _, LiteralListener _ => True
  | PragmaticSpeaker _ a1, PragmaticSpeaker _ a2 => a1 = a2
  | PragmaticListener _, PragmaticListener _ => True
  | _, _ => False
  end.

(** A world the notebooks can be run on: something to talk about, something
    to say, and labels that tell rows apart. *)
Definition well_formed (objects : list Obj.t) (utterances : list string) : Prop :=
  objects <> [] /\ utterances <> [] /\
  NoDup utterances /\ NoDup (map Obj.string objects).

Definition is_finite (v : value) : Prop :=
  match v with Finite _ => True | _ => False end.

Definition not_zero (v : value) : Prop := v <> Finite 0.

Definition nonnegative (v : value) : Prop :=
  match v with
  | Finite r => 0 <= r
  | NegInf => False
  | PosInf | NaN => True
  end.

(** [v] is a number at most [tol] away from [c]. *)
Definition within (tol : R) (v : value) (c : R) : Prop :=
  match v with
  | Finite r => Rabs (r - c) <= tol
  | _ => False
  end.


Definition vlt (x y : value) : Prop :=
  match x, y with
  | Finite a, Finite b => a < b
  | _, _ => False
  end.

(** One row of a table, divided by its total. *)
Definition normalize_row (row : list value) : list value :=
  map (fun x => fdiv x (np_sum row)) row.

Definition Rsum (rs : list R) : R := fold_left Rplus rs 0.

(** ** Tables of the world of the notebooks *)

Definition L0_table : matrix :=
  [[Finite (1/2); Finite (1/2); Finite 0];
   [Finite 0; Finite 0; Finite 1];
   [Finite (1/2); Finite 0; Finite (1/2)];
   [Finite 0; Finite 1; Finite 0]].

(** Weight that the speaker of the expository notebook gives to a
    literal-listener probability [p]. *)
Definition stabilized_weight (alpha p : R) : R :=
  exp (alpha * ln (p + Tutorial.speaker_epsilon)).

(** Weight that the speaker of [intro-to-rsa.ipynb] gives to a positive
    literal-listener probability [p]. *)
Definition plain_weight (alpha p : R) : R := exp (alpha * ln p).

(** Speaker weights, one row per object and one column per utterance. *)
Definition tutorial_weights (alpha : R) : list (list R) :=
  let a := stabilized_weight alpha (1/2) in
  let b := stabilized_weight alpha 1 in
  let c := stabilized_weight alpha 0 in
  [[a; c; a; c]; [a; c; c; b]; [c; b; a; c]].

Definition intro_weights (alpha : R) : list (list R) :=
  let a := plain_weight alpha (1/2) in
  let b := plain_weight alpha 1 in
  [[a; 0; a; 0]; [a; 0; 0; b]; [0; b; a; 0]].

Definition normalized (rs : list R) : list value :=
  map (fun r => Finite (r / Rsum rs)) rs.

(** Listener weights, one row per utterance and one column per object. *)
Definition tutorial_listener_weights : list (list R) :=
  let e := Tutorial.speaker_epsilon in
  let d := Tutorial.listener_epsilon in
  let s1 := 1 + 4 * e in
  let s2 := 3/2 + 4 * e in
  [[(1/2 + e) / s1 + d; (1/2 + e) / s2 + d; e / s2 + d];
   [e / s1 + d; e / s2 + d; (1 + e) / s2 + d];
   [(1/2 + e) / s1 + d; e / s2 + d; (1/2 + e) / s2 + d];
   [e / s1 + d; (1 + e) / s2 + d; e / s2 + d]].

Definition intro_listener_weights : list (list R) :=
  [[1/2; 1/3; 0]; [0; 0; 2/3]; [1/2; 0; 1/3]; [0; 2/3; 0]].

Definition literal_counts : list (list R) :=
  [[1; 1; 0]; [0; 0; 1]; [1; 0; 1]; [0; 1; 0]].

(** A weight [exp (alpha * u)] of a (log-)utility [u]; no utility at all
    stands for the utility minus infinity, whose weight is zero. *)
Definition weight (alpha : R) (u : option R) : R :=
  match u with
  | Some l => exp (alpha * l)
  | None => 0
  end.





(** ** The formulas the stages compute *)

(** [[u]](s) as a number: the cell that [literal_listener] writes. *)
Definition truth_value (obj : Obj.t) (utt : string) : value :=
  if meaning obj utt then Finite 1 else Finite 0.

(** The objects an utterance is true of. *)
Definition extension (objs : list Obj.t) (utt : string) : list Obj.t :=
  filter (fun obj => meaning obj utt) objs.

(** L0(s | u): the truth value over the total of the row of [u]. *)
Definition literal_prob (objs : list Obj.t) (utt : string) (obj : Obj.t)
  : value :=
  fdiv (truth_value obj utt)
       (np_sum (map (fun o => truth_value o utt) objs)).

(** What the speaker of each notebook makes of a literal-listener
    probability, and what the listener makes of a speaker probability. *)
Definition speaker_weight (nb : notebook) (alpha : R) (p : value) : value :=
  match nb with
  | tutorial =>
      fexp (fmul (Finite alpha) (flog (fadd p (Finite Tutorial.speaker_epsilon))))
  | intro => fexp (fmul (Finite alpha) (flog p))
  end.

Definition listener_weight (nb : notebook) (p : value) : value :=
  match nb with
  | tutorial => fadd p (Finite Tutorial.listener_epsilon)
  | intro => p
  end.

Section Formulas.

Variable nb : notebook.
Variable objs : list Obj.t.
Variable utts : list string.

(** Weights of the utterances for one object, and S1(u | s). *)
Definition speaker_weights (alpha : R) (obj : Obj.t) : list value :=
  map (fun utt => speaker_weight nb alpha (literal_prob objs utt obj)) utts.

Definition speaker_prob (alpha : R) (obj : Obj.t) (utt : string) : value :=
  fdiv (speaker_weight nb alpha (literal_prob objs utt obj))
       (np_sum (speaker_weights alpha obj)).

(** Weights of the objects for one utterance, and L1(s | u). *)
Definition listener_weights (utt : string) : list value :=
  map (fun obj => listener_weight nb (speaker_prob 1 obj utt)) objs.

Definition listener_prob (utt : string) (obj : Obj.t) : value :=
  fdiv (listener_weight nb (speaker_prob 1 obj utt))
       (np_sum (listener_weights utt)).

End Formulas.

(** A number in the unit interval, and a positive number. *)
Definition probability (v : value) : Prop :=
  match v with Finite r => 0 <= r <= 1 | _ => False end.

Definition positive (v : value) : Prop :=
  match v with Finite r => 0 < r | _ => False end.

(** Every utterance is true of some object. *)
Definition no_vacuous_utterance (objs : list Obj.t) (utts : list string)
  : Prop :=
  forall utt, In utt utts -> exists obj, In obj objs /\ meaning obj utt = true.

(** L0(s | u) as a real number, when [utt] is true of some object. *)
Definition literal_real (objs : list Obj.t) (utt : string) (obj : Obj.t) : R :=
  if meaning obj utt then 1 / INR (List.length (extension objs utt)) else 0.

(** The utility [log L0(s | u)] that each speaker exponentiates; the
    speaker of [intro-to-rsa.ipynb] takes the logarithm of zero for an
    utterance that is false of the object (no utility, see [weight]). *)
Definition utility (nb : notebook) (objs : list Obj.t) (utt : string)
  (obj : Obj.t) : option R :=
  match nb with
  | tutorial =>
      Some (ln (literal_real objs utt obj + Tutorial.speaker_epsilon))
  | intro =>
      if meaning obj utt then Some (ln (literal_real objs utt obj)) else None
  end.

Definition utilities (nb : notebook) (objs : list Obj.t) (utts : list string)
  (obj : Obj.t) : list (option R) :=
  map (fun utt => utility nb objs utt obj) utts.

(** A world with one more object, which no utterance is true of. *)
Definition red_triangle : Obj.t :=
  {| Obj.color := "red"; Obj.shape := "triangle";
     Obj.string := "red triangle" |}.

Definition objects_triangle : list Obj.t :=
  [blue_square; blue_circle; green_square; red_triangle].

(** An [alpha] of moderate size.  Exact arithmetic computes exponentials
    exactly; doubles do so only while [alpha * ln x] stays inside
    (-745, 709), which a bound of 30 on [alpha] guarantees for every [x] the
    speakers take the logarithm of (the smallest is the speaker's epsilon,
    [1e-9]).  Statements about the size of speaker weights carry this
    bound; what lies beyond it is stated over [double_range] below. *)
Definition moderate (alpha : R) : Prop := Rabs alpha <= 30.

(** The frame and the row that [literal_listener("square")] returns in the
    world of the notebooks. *)
Definition literal_frame : DataFrame :=
  {| data := L0_table;
     columns := ["blue square"; "blue circle"; "green square"];
     index := ["blue"; "green"; "square"; "circle"] |}.

Definition square_row : Series :=
  {| values := [Finite (1/2); Finite 0; Finite (1/2)];
     labels := ["blue square"; "blue circle"; "green square"];
     name := "square" |}.

(** ** Numbers within the range of doubles *)

(** The operations on numbers that the stages use. *)
Record arithmetic : Type := {
  arith_add : value -> value -> value;
  arith_mul : value -> value -> value;
  arith_div : value -> value -> value;
  arith_log : value -> value;
  arith_exp : value -> value
}.

(** Exact arithmetic: the operations of the section Numbers. *)
Definition exact : arithmetic :=
  {| arith_add := fadd; arith_mul := fmul; arith_div := fdiv;
     arith_log := flog; arith_exp := fexp |}.

(** The largest double is [2^1024 - 2^971]; an exact result whose size
    reaches [2^1024 - 2^970], half a step further, is rounded to an
    infinity.  The smallest positive double is [2^-1074]; an exact result
    whose size does not exceed half of it is rounded to zero. *)
Definition overflow_threshold : R := 2 ^ 1024 - 2 ^ 970.
Definition underflow_threshold : R := / 2 ^ 1075.

Definition overflow (r : R) : value :=
  if Rle_dec overflow_threshold r then PosInf
  else if Rle_dec r (- overflow_threshold) then NegInf
  else Finite r.

Definition confine (r : R) : value :=
  if Rle_dec (Rabs r) underflow_threshold then Finite 0 else overflow r.

(** [f] on the result of an exact operation, when that result is a number. *)
Definition through (f : R -> value) (v : value) : value :=
  match v with
  | Finite r => f r
  | _ => v
  end.

(** Arithmetic within the range of doubles: every exact result that leaves
    the range is replaced as a double operation replaces it.  A sum of two
    doubles is never rounded to zero, so a sum can only overflow.  Results
    inside the range are kept as they are: rounding is not modelled. *)
Definition double_range : arithmetic :=
  {| arith_add := fun x y => through overflow (fadd x y);
     arith_mul := fun x y => through confine (fmul x y);
     arith_div := fun x y => through confine (fdiv x y);
     arith_log := fun x => through confine (flog x);
     arith_exp := fun x => through confine (fexp x) |}.

(** The cells of the notebooks once more, over an arithmetic that is a
    parameter; the notebook says whether a pragmatic stage adds its
    [epsilon].  Over [exact] these are the definitions above. *)
Module Generic.
Section Stages.

Variable A : arithmetic.
Variable objects : list Obj.t.
Variable utterances : list string.

Definition np_sum (row : list value) : value :=
  fold_left (arith_add A) row (Finite 0).

Definition normalize_row (row : list value) : list value :=
  map (fun x => arith_div A x (np_sum row)) row.

Definition normalize_rows (a : ndarray) : result matrix :=
  match a with
  | Arr1 _ => Raise AxisError
  | Arr2 m =>
      let totals := map np_sum m in
      Ok (map (fun '(row, total) => map (fun x => arith_div A x total) row)
              (combine m totals))
  end.

Definition literal_listener (utt : string) : result (DataFrame * Series) :=
  data <- normalize_rows (Arr2 (all_counts objects utterances)) ;;
  let df_cols := map Obj.string objects in
  let df := {| data := data; columns := df_cols; index := utterances |} in
  probs <- loc df utt ;;
  Ok (df, probs).

Definition speaker_weight (nb : notebook) (alpha : R) (p : value) : value :=
  match nb with
  | tutorial =>
      arith_exp A
        (arith_mul A (Finite alpha)
           (arith_log A (arith_add A p (Finite Tutorial.speaker_epsilon))))
  | intro => arith_exp A (arith_mul A (Finite alpha) (arith_log A p))
  end.

Definition speaker_vals (nb : notebook) (alpha : R)
  : result (list (list value)) :=
  for_each (fun curr_utt =>
              '(_, probs) <- literal_listener curr_utt ;;
              let utility := values probs in
              Ok (map (speaker_weight nb alpha) utility))
           utterances.

Definition pragmatic_speaker (nb : notebook) (obj : Obj.t) (alpha : R)
  : result (DataFrame * Series) :=
  all_vals <- speaker_vals nb alpha ;;
  data <- normalize_rows (T (np_array all_vals)) ;;
  let df_idx := map Obj.string objects in
  let df := {| data := data; columns := utterances; index := df_idx |} in
  probs <- loc df (Obj.string obj) ;;
  Ok (df, probs).

Definition listener_vals (nb : notebook) : result (list (list value)) :=
  for_each (fun curr_obj =>
              '(_, probs) <- pragmatic_speaker nb curr_obj 1 ;;
              Ok (match nb with
                  | tutorial =>
                      map (fun p => arith_add A p
                                      (Finite Tutorial.listener_epsilon))
                          (values probs)
                  | intro => values probs
                  end))
           objects.

Definition pragmatic_listener (nb : notebook) (utt : string)
  : result (DataFrame * Series) :=
  all_vals <- listener_vals nb ;;
  data <- normalize_rows (T (np_array all_vals)) ;;
  let df_cols := map Obj.string objects in
  let df := {| data := data; columns := df_cols; index := utterances |} in
  probs <- loc df utt ;;
  Ok (df, probs).

Definition run (nb : notebook) (q : query) : result (DataFrame * Series) :=
  match q with
  | LiteralListener utt => literal_listener utt
  | PragmaticSpeaker obj alpha => pragmatic_speaker nb obj alpha
  | PragmaticListener utt => pragmatic_listener nb utt
  end.

End Stages.
End Generic.

(** A number that double arithmetic leaves as it is: zero, or a number
    whose size lies between [2^-1000] and [2^1000]. *)
Definition ordinary (r : R) : Prop :=
  r = 0 \/ / 2 ^ 1000 <= Rabs r <= 2 ^ 1000.

(** A row of probabilities that sum to one, within [1e-9]. *)
Definition distribution (row : list value) : Prop :=
  Forall probability row /\ within (1 / 1000000000) (np_sum row) 1.



(** * Properties *)

(** ** Numbers: signs and sums *)

Lemma Rsign_pos (x : R) : 0 < x -> Rsign x = Gt.
Proof.
  intros H. unfold Rsign.
  destruct (total_order_T x 0) as [[?|?]|?]; try reflexivity; lra.
Qed.

Lemma Rsign_zero (x : R) : x = 0 -> Rsign x = Eq.
Proof.
  intros H. unfold Rsign.
  destruct (total_order_T x 0) as [[?|?]|?]; try reflexivity; lra.
Qed.

Lemma Rsign_neg (x : R) : x < 0 -> Rsign x = Lt.
Proof.
  intros H. unfold Rsign.
  destruct (total_order_T x 0) as [[?|?]|?]; try reflexivity; lra.
Qed.

Lemma fdiv_finite (a b : R) : b <> 0 -> fdiv (Finite a) (Finite b) = Finite (a / b).
Proof.
  intros Hb. unfold fdiv, Rsign.
  destruct (total_order_T b 0) as [[?|?]|?]; try reflexivity; lra.
Qed.

Lemma fdiv_zero_zero : fdiv (Finite 0) (Finite 0) = NaN.
Proof. unfold fdiv. now rewrite (Rsign_zero 0). Qed.

Lemma flog_pos (a : R) : 0 < a -> flog (Finite a) = Finite (ln a).
Proof. intros H. unfold flog. now rewrite Rsign_pos. Qed.

Lemma flog_zero : flog (Finite 0) = NegInf.
Proof. unfold flog. now rewrite (Rsign_zero 0). Qed.

Lemma is_finite_inv (v : value) : is_finite v -> exists r, v = Finite r.
Proof. destruct v; simpl; try contradiction. intros _. now exists r. Qed.

Lemma all_finite_inv (l : list value) :
  Forall is_finite l -> exists rs, l = map Finite rs.
Proof.
  induction 1 as [|v l Hv _ [rs ->]].
  - now exists [].
  - destruct (is_finite_inv v Hv) as [r ->]. now exists (r :: rs).
Qed.

Lemma fold_fadd_finite (rs : list R) (acc : R) :
  fold_left fadd (map Finite rs) (Finite acc) = Finite (fold_left Rplus rs acc).
Proof.
  revert acc. induction rs as [|r rs IH]; intros acc; simpl; [reflexivity|].
  apply IH.
Qed.

Lemma np_sum_finite (rs : list R) : np_sum (map Finite rs) = Finite (Rsum rs).
Proof. apply fold_fadd_finite. Qed.

Lemma fold_Rplus_acc (rs : list R) (acc : R) :
  fold_left Rplus rs acc = acc + Rsum rs.
Proof.
  unfold Rsum. revert acc.
  induction rs as [|r rs IH]; intros acc; simpl; [lra|].
  rewrite (IH (acc + r)), (IH (0 + r)). lra.
Qed.

Lemma Rsum_cons (r : R) (rs : list R) : Rsum (r :: rs) = r + Rsum rs.
Proof. unfold Rsum at 1. simpl. rewrite fold_Rplus_acc. lra. Qed.

Lemma Rsum_scale (rs : list R) (t : R) :
  Rsum (map (fun r => r / t) rs) = Rsum rs / t.
Proof.
  induction rs as [|r rs IH]; simpl.
  - unfold Rsum. simpl. lra.
  - rewrite !Rsum_cons, IH. lra.
Qed.

Lemma Rsum_nonnegative (rs : list R) : Forall (fun r => 0 <= r) rs -> 0 <= Rsum rs.
Proof.
  induction 1 as [|r rs Hr _ IH]; [unfold Rsum; simpl; lra|].
  rewrite Rsum_cons. lra.
Qed.

Lemma Rsum_pos (rs : list R) :
  Forall (fun r => 0 <= r) rs -> Exists (fun r => r <> 0) rs -> 0 < Rsum rs.
Proof.
  induction 1 as [|r rs Hr Hrs IH]; intros Hex; inversion Hex; subst;
    rewrite Rsum_cons.
  - pose proof (Rsum_nonnegative rs Hrs). lra.
  - specialize (IH H0). lra.
Qed.

(** ** Rows and their normalisation *)

Lemma normalize_rows_Arr2 (m : matrix) :
  normalize_rows (Arr2 m) = Ok (map normalize_row m).
Proof.
  unfold normalize_rows. f_equal.
  induction m as [|row m IH]; simpl; [reflexivity|].
  now rewrite IH.
Qed.

Lemma normalize_row_finite (rs : list R) :
  Rsum rs <> 0 ->
  normalize_row (map Finite rs) = map (fun r => Finite (r / Rsum rs)) rs.
Proof.
  intros Ht. unfold normalize_row. rewrite np_sum_finite, map_map.
  apply map_ext. intros r. now apply fdiv_finite.
Qed.


Lemma nonnegative_finite_inv (rs : list R) :
  Forall nonnegative (map Finite rs) -> Forall (fun r => 0 <= r) rs.
Proof.
  induction rs as [|r rs IH]; simpl; intros H; inversion H; subst; auto.
Qed.

Lemma not_zero_finite_inv (rs : list R) :
  Exists not_zero (map Finite rs) -> Exists (fun r => r <> 0) rs.
Proof.
  induction rs as [|r rs IH]; simpl; intros H; inversion H; subst.
  - left. intros ->. now apply H1.
  - right. auto.
Qed.


Lemma fadd_nonnegative (x y : value) : nonnegative x -> nonnegative y -> nonnegative (fadd x y).
Proof. destruct x, y; simpl; try tauto. lra. Qed.

Lemma fold_fadd_nonnegative (l : list value) (acc : value) :
  nonnegative acc -> Forall nonnegative l -> nonnegative (fold_left fadd l acc).
Proof.
  intros Hacc Hl. revert acc Hacc.
  induction Hl as [|v l Hv _ IH]; intros acc Hacc; simpl; [assumption|].
  apply IH. now apply fadd_nonnegative.
Qed.

Lemma np_sum_nonnegative (l : list value) : Forall nonnegative l -> nonnegative (np_sum l).
Proof. apply fold_fadd_nonnegative. simpl. lra. Qed.

Lemma fdiv_nonnegative (x y : value) : nonnegative x -> nonnegative y -> nonnegative (fdiv x y).
Proof.
  destruct x as [a| | |], y as [b| | |]; simpl; try tauto; try lra.
  - intros Ha Hb. unfold Rsign.
    destruct (total_order_T b 0) as [[?|?]|?]; simpl.
    + lra.
    + destruct (total_order_T a 0) as [[?|?]|?]; simpl; try tauto; lra.
    + apply Rmult_le_pos; [assumption|].
      left. now apply Rinv_0_lt_compat.
  - intros _ Hb. unfold Rsign.
    destruct (total_order_T b 0) as [[?|?]|?]; simpl; try tauto; lra.
Qed.

Lemma fexp_nonnegative (x : value) : nonnegative (fexp x).
Proof. destruct x; simpl; try tauto; try lra. left. apply exp_pos. Qed.

Lemma normalize_row_nonnegative (row : list value) :
  Forall nonnegative row -> Forall nonnegative (normalize_row row).
Proof.
  intros H. unfold normalize_row. apply Forall_map.
  apply Forall_impl with (2 := H). intros v Hv.
  apply fdiv_nonnegative; [assumption|]. now apply np_sum_nonnegative.
Qed.

Lemma column_nonnegative (j : nat) (m : matrix) :
  Forall (Forall nonnegative) m -> Forall nonnegative (column j m).
Proof.
  intros H. unfold column. apply Forall_map.
  apply Forall_impl with (2 := H). intros row Hrow.
  destruct (Nat.lt_ge_cases j (List.length row)) as [Hj|Hj].
  - rewrite Forall_forall in Hrow. apply Hrow. now apply nth_In.
  - rewrite nth_overflow by assumption. exact I.
Qed.

Lemma T_nonnegative (rows : list (list value)) (m : matrix) :
  Forall (Forall nonnegative) rows -> T (np_array rows) = Arr2 m ->
  Forall (Forall nonnegative) m.
Proof.
  intros H. destruct rows as [|row rows]; [discriminate|].
  unfold np_array, T. intros [= <-]. apply Forall_map, Forall_forall.
  intros j _. exact (column_nonnegative j (row :: rows) H).
Qed.

Lemma nth_nonnegative (i : nat) (m : matrix) :
  Forall (Forall nonnegative) m -> Forall nonnegative (nth i m []).
Proof.
  intros H. destruct (Nat.lt_ge_cases i (List.length m)) as [Hi|Hi].
  - rewrite Forall_forall in H. apply H. now apply nth_In.
  - rewrite nth_overflow by assumption. constructor.
Qed.

Lemma nth_normalize (i : nat) (m : matrix) :
  nth i (map normalize_row m) [] = normalize_row (nth i m []).
Proof. apply (map_nth normalize_row m [] i). Qed.

(** ** Loops, labels and rows *)

Lemma for_each_map {A B : Type} (f : A -> result B) (g : A -> B) (l : list A) :
  (forall a, In a l -> f a = Ok (g a)) -> for_each f l = Ok (map g l).
Proof.
  induction l as [|a l IH]; intros H; simpl; [reflexivity|].
  rewrite (H a) by now left. simpl.
  rewrite IH by (intros; apply H; now right). reflexivity.
Qed.

Lemma for_each_inv {A B : Type} (f : A -> result B) (l : list A) (bs : list B) :
  for_each f l = Ok bs -> Forall (fun b => exists a, In a l /\ f a = Ok b) bs.
Proof.
  revert bs. induction l as [|a l IH]; simpl; intros bs H.
  - injection H as <-. constructor.
  - destruct (f a) as [b|e] eqn:Hfa; simpl in H; [|discriminate].
    destruct (for_each f l) as [bs'|e] eqn:Hfl; simpl in H; [|discriminate].
    injection H as <-. constructor.
    + exists a. split; [now left|assumption].
    + apply Forall_impl with (2 := IH bs' eq_refl).
      intros b' (a' & Ha' & Hb'). exists a'. split; [now right|assumption].
Qed.

Lemma for_each_ok {A B : Type} (f : A -> result B) (l : list A) :
  (forall a, In a l -> exists b, f a = Ok b) ->
  exists bs, for_each f l = Ok bs /\ List.length bs = List.length l.
Proof.
  induction l as [|a l IH]; intros H; simpl.
  - now exists [].
  - destruct (H a) as [b Hb]; [now left|]. rewrite Hb. simpl.
    destruct IH as (bs & Hbs & Hlen); [intros; apply H; now right|].
    rewrite Hbs. simpl. exists (b :: bs). split; [reflexivity|].
    simpl. now rewrite Hlen.
Qed.

Lemma position_None (key : string) (l : list string) :
  position key l = None <-> ~ In key l.
Proof.
  induction l as [|k l IH]; simpl; [tauto|].
  destruct (String.eqb_spec key k) as [->|Hne].
  - split; [discriminate|]. intros H. exfalso. apply H. now left.
  - destruct (position key l); simpl.
    + split; [discriminate|]. intros H. exfalso.
      assert (Hnot : ~ In key l) by tauto.
      now apply IH in Hnot.
    + split; [|reflexivity]. intros _ [H|H]; [congruence|].
      now apply (proj1 IH).
Qed.

Lemma position_In (key : string) (l : list string) :
  In key l -> exists i, position key l = Some i.
Proof.
  intros H. destruct (position key l) as [i|] eqn:E; [now exists i|].
  now apply position_None in E.
Qed.

Lemma loc_unregistered (df : DataFrame) (key : string) :
  ~ In key (index df) -> loc df key = Raise (KeyError key).
Proof. intros H. unfold loc. now rewrite (proj2 (position_None _ _) H). Qed.

Lemma loc_registered (df : DataFrame) (key : string) :
  In key (index df) -> exists probs, loc df key = Ok probs.
Proof.
  intros H. destruct (position_In _ _ H) as [i Hi].
  unfold loc. rewrite Hi. eauto.
Qed.

(** ** The three stages, in any world *)

(** Every stage prepares an array, normalises it, frames it and looks up
    the row that was asked for. *)
Lemma run_factor (nb : notebook) (objs : list Obj.t) (utts : list string)
  (q : query) :
  run nb objs utts q =
    (a <- before_normalization nb objs utts q ;;
     data <- normalize_rows a ;;
     let df := {| data := data;
                  columns := column_labels objs utts q;
                  index := row_labels objs utts q |} in
     probs <- loc df (key q) ;;
     Ok (df, probs)).
Proof.
  destruct q as [utt|obj alpha|utt], nb; simpl; try reflexivity.
  - unfold Tutorial.pragmatic_speaker.
    now destruct (Tutorial.speaker_vals objs utts alpha).
  - unfold Intro.pragmatic_speaker.
    now destruct (Intro.speaker_vals objs utts alpha).
  - unfold Tutorial.pragmatic_listener.
    now destruct (Tutorial.listener_vals objs utts).
  - unfold Intro.pragmatic_listener.
    now destruct (Intro.listener_vals objs utts).
Qed.

Lemma run_Arr2 (nb : notebook) (objs : list Obj.t) (utts : list string)
  (q : query) (m : matrix) :
  before_normalization nb objs utts q = Ok (Arr2 m) ->
  run nb objs utts q =
    (let df := {| data := map normalize_row m;
                  columns := column_labels objs utts q;
                  index := row_labels objs utts q |} in
     probs <- loc df (key q) ;; Ok (df, probs)).
Proof.
  intros H. rewrite run_factor, H. unfold bind at 1.
  now rewrite normalize_rows_Arr2.
Qed.

(** What a successful query returns. *)
Lemma run_inv (nb : notebook) (objs : list Obj.t) (utts : list string)
  (q : query) (df : DataFrame) (probs : Series) :
  run nb objs utts q = Ok (df, probs) ->
  exists m i,
    before_normalization nb objs utts q = Ok (Arr2 m) /\
    position (key q) (row_labels objs utts q) = Some i /\
    data df = map normalize_row m /\
    values probs = normalize_row (nth i m []).
Proof.
  rewrite run_factor.
  destruct (before_normalization nb objs utts q) as [[v|m]|e];
    unfold bind at 1; try discriminate.
  rewrite normalize_rows_Arr2. simpl. unfold loc. simpl.
  destruct (position (key q) (row_labels objs utts q)) as [i|]; simpl;
    [|discriminate].
  intros [= <- <-]. exists m, i. simpl. rewrite nth_normalize. auto.
Qed.

Lemma all_counts_nonnegative (objs : list Obj.t) (utts : list string) :
  Forall (Forall nonnegative) (all_counts objs utts).
Proof.
  unfold all_counts. apply Forall_map, Forall_forall. intros u _.
  apply Forall_map, Forall_forall. intros o _.
  destruct (meaning o u); simpl; lra.
Qed.

Lemma values_nonnegative (nb : notebook) (objs : list Obj.t)
  (utts : list string) (q : query) (df : DataFrame) (probs : Series) :
  (forall m, before_normalization nb objs utts q = Ok (Arr2 m) ->
             Forall (Forall nonnegative) m) ->
  run nb objs utts q = Ok (df, probs) ->
  Forall nonnegative (values probs).
Proof.
  intros Hm Hrun. destruct (run_inv _ _ _ _ _ _ Hrun) as (m & i & Hbn & _ & _ & ->).
  apply normalize_row_nonnegative, nth_nonnegative. now apply Hm.
Qed.

Lemma speaker_before_nonnegative (nb : notebook) (objs : list Obj.t)
  (utts : list string) (obj : Obj.t) (alpha : R) (m : matrix) :
  before_normalization nb objs utts (PragmaticSpeaker obj alpha) = Ok (Arr2 m) ->
  Forall (Forall nonnegative) m.
Proof.
  destruct nb; simpl.
  - destruct (Tutorial.speaker_vals objs utts alpha) as [vals|e] eqn:E;
      simpl; [|discriminate].
    intros [= H]. apply (T_nonnegative vals); [|assumption].
    apply Forall_impl with (2 := for_each_inv _ _ _ E).
    intros row (u & _ & Hrow).
    destruct (literal_listener objs utts u) as [[df probs]|e]; simpl in Hrow;
      [|discriminate].
    injection Hrow as <-. apply Forall_map, Forall_forall. intros p _.
    apply fexp_nonnegative.
  - destruct (Intro.speaker_vals objs utts alpha) as [vals|e] eqn:E;
      simpl; [|discriminate].
    intros [= H]. apply (T_nonnegative vals); [|assumption].
    apply Forall_impl with (2 := for_each_inv _ _ _ E).
    intros row (u & _ & Hrow).
    destruct (literal_listener objs utts u) as [[df probs]|e]; simpl in Hrow;
      [|discriminate].
    injection Hrow as <-. apply Forall_map, Forall_forall. intros p _.
    apply fexp_nonnegative.
Qed.

Lemma listener_before_nonnegative (nb : notebook) (objs : list Obj.t)
  (utts : list string) (utt : string) (m : matrix) :
  before_normalization nb objs utts (PragmaticListener utt) = Ok (Arr2 m) ->
  Forall (Forall nonnegative) m.
Proof.
  destruct nb; simpl.
  - destruct (Tutorial.listener_vals objs utts) as [vals|e] eqn:E;
      simpl; [|discriminate].
    intros [= H]. apply (T_nonnegative vals); [|assumption].
    apply Forall_impl with (2 := for_each_inv _ _ _ E).
    intros row (o & _ & Hrow).
    destruct (Tutorial.pragmatic_speaker objs utts o 1) as [[df probs]|e] eqn:Hs;
      simpl in Hrow; [|discriminate].
    injection Hrow as <-. apply Forall_map.
    assert (Hv : Forall nonnegative (values probs)).
    { apply (values_nonnegative tutorial objs utts (PragmaticSpeaker o 1) df);
        [|exact Hs].
      intros m'. apply speaker_before_nonnegative. }
    apply Forall_impl with (2 := Hv). intros p Hp.
    apply fadd_nonnegative; [assumption|].
    simpl. unfold Tutorial.listener_epsilon. lra.
  - destruct (Intro.listener_vals objs utts) as [vals|e] eqn:E;
      simpl; [|discriminate].
    intros [= H]. apply (T_nonnegative vals); [|assumption].
    apply Forall_impl with (2 := for_each_inv _ _ _ E).
    intros row (o & _ & Hrow).
    destruct (Intro.pragmatic_speaker objs utts o 1) as [[df probs]|e] eqn:Hs;
      simpl in Hrow; [|discriminate].
    injection Hrow as <-.
    apply (values_nonnegative intro objs utts (PragmaticSpeaker o 1) df);
      [|exact Hs].
    intros m'. apply speaker_before_nonnegative.
Qed.

Lemma before_nonnegative (nb : notebook) (objs : list Obj.t)
  (utts : list string) (q : query) (m : matrix) :
  before_normalization nb objs utts q = Ok (Arr2 m) ->
  Forall (Forall nonnegative) m.
Proof.
  destruct q as [utt|obj alpha|utt].
  - destruct nb; simpl; intros [= <-]; apply all_counts_nonnegative.
  - apply speaker_before_nonnegative.
  - apply listener_before_nonnegative.
Qed.

Lemma run_registered (nb : notebook) (objs : list Obj.t) (utts : list string)
  (q : query) (m : matrix) :
  before_normalization nb objs utts q = Ok (Arr2 m) ->
  registered objs utts q ->
  exists df probs, run nb objs utts q = Ok (df, probs).
Proof.
  intros Hbn Hreg. rewrite (run_Arr2 _ _ _ _ _ Hbn). cbv zeta.
  match goal with |- context [loc ?df _] =>
    destruct (loc_registered df (key q) Hreg) as [probs ->] end.
  simpl. eauto.
Qed.

Lemma run_unregistered (nb : notebook) (objs : list Obj.t)
  (utts : list string) (q : query) (m : matrix) :
  before_normalization nb objs utts q = Ok (Arr2 m) ->
  ~ registered objs utts q ->
  run nb objs utts q = Raise (KeyError (key q)).
Proof.
  intros Hbn Hreg. rewrite (run_Arr2 _ _ _ _ _ Hbn). cbv zeta.
  now rewrite loc_unregistered by exact Hreg.
Qed.

Lemma T_of_rows (rows : list (list value)) :
  rows <> [] -> exists m, T (np_array rows) = Arr2 m.
Proof.
  destruct rows as [|row rows]; [congruence|]. intros _.
  unfold np_array, T. eauto.
Qed.

Lemma nonempty_length {A B : Type} (l : list A) (l' : list B) :
  List.length l' = List.length l -> l <> [] -> l' <> [].
Proof. destruct l, l'; simpl; congruence. Qed.

Lemma speaker_before_ok (nb : notebook) (objs : list Obj.t)
  (utts : list string) (obj : Obj.t) (alpha : R) :
  utts <> [] ->
  exists m, before_normalization nb objs utts (PragmaticSpeaker obj alpha)
            = Ok (Arr2 m).
Proof.
  intros Hne.
  assert (Hll : forall u, In u utts ->
            exists df probs, literal_listener objs utts u = Ok (df, probs)).
  { intros u Hu.
    apply (run_registered tutorial objs utts (LiteralListener u)
             (all_counts objs utts)); [reflexivity|exact Hu]. }
  destruct nb; simpl.
  - destruct (for_each_ok
      (fun curr_utt =>
         '(_, probs) <- literal_listener objs utts curr_utt ;;
         Ok (map (fun p => fexp (fmul (Finite alpha)
                   (flog (fadd p (Finite Tutorial.speaker_epsilon)))))
               (values probs))) utts) as (vals & Hvals & Hlen).
    { intros u Hu. destruct (Hll u Hu) as (df & probs & ->). simpl. eauto. }
    unfold Tutorial.speaker_vals. rewrite Hvals. simpl.
    destruct (T_of_rows vals (nonempty_length _ _ Hlen Hne)) as [m ->]. eauto.
  - destruct (for_each_ok
      (fun curr_utt =>
         '(_, probs) <- literal_listener objs utts curr_utt ;;
         Ok (map (fun p => fexp (fmul (Finite alpha) (flog p)))
               (values probs))) utts) as (vals & Hvals & Hlen).
    { intros u Hu. destruct (Hll u Hu) as (df & probs & ->). simpl. eauto. }
    unfold Intro.speaker_vals. rewrite Hvals. simpl.
    destruct (T_of_rows vals (nonempty_length _ _ Hlen Hne)) as [m ->]. eauto.
Qed.

Lemma listener_before_ok (nb : notebook) (objs : list Obj.t)
  (utts : list string) (utt : string) :
  objs <> [] -> utts <> [] ->
  exists m, before_normalization nb objs utts (PragmaticListener utt)
            = Ok (Arr2 m).
Proof.
  intros Hobjs Hutts.
  assert (Hs : forall nb o, In o objs ->
            exists df probs,
              run nb objs utts (PragmaticSpeaker o 1) = Ok (df, probs)).
  { intros nb' o Ho.
    destruct (speaker_before_ok nb' objs utts o 1 Hutts) as [m Hm].
    apply (run_registered _ _ _ _ _ Hm).
    exact (in_map Obj.string objs o Ho). }
  destruct nb; simpl.
  - destruct (for_each_ok
      (fun curr_obj =>
         '(_, probs) <- Tutorial.pragmatic_speaker objs utts curr_obj 1 ;;
         Ok (map (fun p => fadd p (Finite Tutorial.listener_epsilon))
               (values probs))) objs) as (vals & Hvals & Hlen).
    { intros o Ho. destruct (Hs tutorial o Ho) as (df & probs & H).
      simpl in H. rewrite H. simpl. eauto. }
    unfold Tutorial.listener_vals. rewrite Hvals. simpl.
    destruct (T_of_rows vals (nonempty_length _ _ Hlen Hobjs)) as [m ->]. eauto.
  - destruct (for_each_ok
      (fun curr_obj =>
         '(_, probs) <- Intro.pragmatic_speaker objs utts curr_obj 1 ;;
         Ok (values probs)) objs) as (vals & Hvals & Hlen).
    { intros o Ho. destruct (Hs intro o Ho) as (df & probs & H).
      simpl in H. rewrite H. simpl. eauto. }
    unfold Intro.listener_vals. rewrite Hvals. simpl.
    destruct (T_of_rows vals (nonempty_length _ _ Hlen Hobjs)) as [m ->]. eauto.
Qed.

Lemma before_ok (nb : notebook) (objs : list Obj.t) (utts : list string)
  (q : query) :
  well_formed objs utts ->
  exists m, before_normalization nb objs utts q = Ok (Arr2 m).
Proof.
  intros (Hobjs & Hutts & _). destruct q as [utt|obj alpha|utt].
  - destruct nb; simpl; eauto.
  - now apply speaker_before_ok.
  - now apply listener_before_ok.
Qed.

Lemma before_same_stage (nb : notebook) (objs : list Obj.t)
  (utts : list string) (q1 q2 : query) :
  same_stage q1 q2 ->
  before_normalization nb objs utts q1 = before_normalization nb objs utts q2 /\
  row_labels objs utts q1 = row_labels objs utts q2 /\
  column_labels objs utts q1 = column_labels objs utts q2.
Proof.
  destruct q1, q2; simpl; try contradiction; try intros ->; auto.
Qed.

Lemma position_nth (key : string) (l : list string) (i : nat) :
  position key l = Some i -> (i < List.length l)%nat /\ nth i l EmptyString = key.
Proof.
  revert i. induction l as [|k l IH]; simpl; intros i; [discriminate|].
  destruct (String.eqb_spec key k) as [->|Hne].
  - intros [= <-]. split; [lia|reflexivity].
  - destruct (position key l) as [j|]; simpl; [|discriminate].
    intros [= <-]. destruct (IH j eq_refl). split; [lia|assumption].
Qed.

Lemma Rsum_zeros {A : Type} (l : list A) : Rsum (map (fun _ => 0) l) = 0.
Proof.
  induction l as [|a l IH]; simpl; [reflexivity|].
  rewrite Rsum_cons, IH. lra.
Qed.



(** ** The world of the notebooks *)

Ltac signs :=
  repeat match goal with
    | |- context [Rsign ?x] =>
        first [ rewrite (Rsign_pos x) by lra
              | rewrite (Rsign_zero x) by lra
              | rewrite (Rsign_neg x) by lra ]
    end.

Ltac table_eq :=
  repeat match goal with
    | |- Ok _ = Ok _ => apply f_equal
    | |- Arr2 _ = Arr2 _ => apply f_equal
    | |- cons _ _ = cons _ _ => apply f_equal2
    | |- Finite _ = Finite _ => apply f_equal; lra
    | |- nil = nil => reflexivity
    end.

Lemma canonical_well_formed : well_formed objects utterances.
Proof.
  repeat split; try discriminate.
  - repeat constructor; simpl; intuition discriminate.
  - repeat constructor; simpl; intuition discriminate.
Qed.

Lemma literal_table :
  map normalize_row (all_counts objects utterances) = L0_table.
Proof.
  cbn. unfold np_sum. cbn. signs. unfold L0_table. table_eq.
Qed.

Lemma literal_listener_at (u : string) (i : nat) :
  position u utterances = Some i ->
  literal_listener objects utterances u =
    Ok ({| data := L0_table; columns := map Obj.string objects;
           index := utterances |},
        {| values := nth i L0_table [];
           labels := map Obj.string objects; name := u |}).
Proof.
  intros Hi. unfold literal_listener.
  rewrite normalize_rows_Arr2, literal_table. simpl. unfold loc. simpl index.
  rewrite Hi. reflexivity.
Qed.

Lemma speaker_epsilon_pos : 0 < Tutorial.speaker_epsilon.
Proof. unfold Tutorial.speaker_epsilon. lra. Qed.

Lemma tutorial_speaker_before (obj : Obj.t) (alpha : R) :
  before_normalization tutorial objects utterances (PragmaticSpeaker obj alpha)
  = Ok (Arr2 (map (map Finite) (tutorial_weights alpha))).
Proof.
  unfold before_normalization, Tutorial.speaker_vals.
  unfold utterances at 2. cbn [for_each].
  rewrite (literal_listener_at "blue" 0 eq_refl),
          (literal_listener_at "green" 1 eq_refl),
          (literal_listener_at "square" 2 eq_refl),
          (literal_listener_at "circle" 3 eq_refl).
  cbn [bind values nth L0_table map fadd].
  pose proof speaker_epsilon_pos.
  rewrite !flog_pos by lra.
  cbn [fmul fexp bind np_array T hd List.length seq map column nth].
  reflexivity.
Qed.

Lemma run_weights (nb : notebook) (objs : list Obj.t) (utts : list string)
  (q : query) (ws : list (list R)) (i : nat) :
  before_normalization nb objs utts q = Ok (Arr2 (map (map Finite) ws)) ->
  position (key q) (row_labels objs utts q) = Some i ->
  Rsum (nth i ws []) <> 0 ->
  exists df,
    run nb objs utts q =
      Ok (df, {| values := normalized (nth i ws []);
                 labels := column_labels objs utts q;
                 name := key q |}).
Proof.
  intros Hbn Hi Hsum. rewrite (run_Arr2 _ _ _ _ _ Hbn). cbv zeta.
  unfold loc. simpl. rewrite Hi. simpl. eexists. do 3 f_equal.
  rewrite nth_normalize.
  change (@nil value) with (map Finite []). rewrite map_nth.
  now apply normalize_row_finite.
Qed.

Lemma stabilized_weight_pos (alpha p : R) : 0 < stabilized_weight alpha p.
Proof. apply exp_pos. Qed.

Lemma plain_weight_pos (alpha p : R) : 0 < plain_weight alpha p.
Proof. apply exp_pos. Qed.

Lemma stabilized_weight_1 (p : R) :
  0 <= p -> stabilized_weight 1 p = p + Tutorial.speaker_epsilon.
Proof.
  intros Hp. unfold stabilized_weight. rewrite Rmult_1_l.
  apply exp_ln. pose proof speaker_epsilon_pos. lra.
Qed.

Lemma plain_weight_1 (p : R) : 0 < p -> plain_weight 1 p = p.
Proof.
  intros Hp. unfold plain_weight. rewrite Rmult_1_l. now apply exp_ln.
Qed.

Lemma tutorial_weights_pos (alpha : R) (i : nat) :
  (i < 3)%nat -> 0 < Rsum (nth i (tutorial_weights alpha) []).
Proof.
  intros Hi.
  pose proof (stabilized_weight_pos alpha (1/2)).
  pose proof (stabilized_weight_pos alpha 1).
  pose proof (stabilized_weight_pos alpha 0).
  destruct i as [|[|[|i]]]; try lia; unfold Rsum; simpl; lra.
Qed.

Lemma intro_speaker_before (obj : Obj.t) (alpha : R) :
  0 < alpha ->
  before_normalization intro objects utterances (PragmaticSpeaker obj alpha)
  = Ok (Arr2 (map (map Finite) (intro_weights alpha))).
Proof.
  intros Halpha. unfold before_normalization, Intro.speaker_vals.
  unfold utterances at 2. cbn [for_each].
  rewrite (literal_listener_at "blue" 0 eq_refl),
          (literal_listener_at "green" 1 eq_refl),
          (literal_listener_at "square" 2 eq_refl),
          (literal_listener_at "circle" 3 eq_refl).
  cbn [bind values nth L0_table map].
  rewrite !flog_zero. rewrite !flog_pos by lra.
  cbn [fmul]. rewrite (Rsign_pos alpha Halpha).
  cbn [fexp bind np_array T hd List.length seq map column nth].
  reflexivity.
Qed.

Lemma intro_weights_pos (alpha : R) (i : nat) :
  (i < 3)%nat -> 0 < Rsum (nth i (intro_weights alpha) []).
Proof.
  intros Hi.
  pose proof (plain_weight_pos alpha (1/2)).
  pose proof (plain_weight_pos alpha 1).
  destruct i as [|[|[|i]]]; try lia; unfold Rsum; simpl; lra.
Qed.



Lemma tutorial_speaker_at (obj : Obj.t) (alpha : R) (i : nat) :
  position (Obj.string obj) (map Obj.string objects) = Some i ->
  exists df,
    Tutorial.pragmatic_speaker objects utterances obj alpha =
      Ok (df, {| values := normalized (nth i (tutorial_weights alpha) []);
                 labels := utterances;
                 name := Obj.string obj |}).
Proof.
  intros Hi.
  apply (run_weights tutorial objects utterances (PragmaticSpeaker obj alpha)
           (tutorial_weights alpha) i (tutorial_speaker_before obj alpha) Hi).
  destruct (position_nth _ _ _ Hi) as [Hlt _].
  pose proof (tutorial_weights_pos alpha i Hlt). lra.
Qed.

Lemma intro_speaker_at (obj : Obj.t) (alpha : R) (i : nat) :
  0 < alpha ->
  position (Obj.string obj) (map Obj.string objects) = Some i ->
  exists df,
    Intro.pragmatic_speaker objects utterances obj alpha =
      Ok (df, {| values := normalized (nth i (intro_weights alpha) []);
                 labels := utterances;
                 name := Obj.string obj |}).
Proof.
  intros Halpha Hi.
  apply (run_weights intro objects utterances (PragmaticSpeaker obj alpha)
           (intro_weights alpha) i (intro_speaker_before obj alpha Halpha) Hi).
  destruct (position_nth _ _ _ Hi) as [Hlt _].
  pose proof (intro_weights_pos alpha i Hlt). lra.
Qed.

Lemma listener_epsilon_pos : 0 < Tutorial.listener_epsilon.
Proof. unfold Tutorial.listener_epsilon. lra. Qed.

Ltac table_field :=
  repeat match goal with
    | |- Ok _ = Ok _ => apply f_equal
    | |- Arr2 _ = Arr2 _ => apply f_equal
    | |- cons _ _ = cons _ _ => apply f_equal2
    | |- Finite _ = Finite _ => apply f_equal; first [lra | field; lra]
    | |- nil = nil => reflexivity
    end.

Lemma tutorial_listener_before (utt : string) :
  before_normalization tutorial objects utterances (PragmaticListener utt)
  = Ok (Arr2 (map (map Finite) tutorial_listener_weights)).
Proof.
  unfold before_normalization, Tutorial.listener_vals.
  unfold objects at 2. cbn [for_each].
  destruct (tutorial_speaker_at blue_square 1 0 eq_refl) as [df0 ->].
  destruct (tutorial_speaker_at blue_circle 1 1 eq_refl) as [df1 ->].
  destruct (tutorial_speaker_at green_square 1 2 eq_refl) as [df2 ->].
  cbn [bind values nth tutorial_weights normalized map fadd
       np_array T hd List.length seq column].
  rewrite !stabilized_weight_1 by lra.
  unfold Rsum, tutorial_listener_weights. cbn [fold_left map].
  pose proof speaker_epsilon_pos. pose proof listener_epsilon_pos.
  table_field.
Qed.

Lemma intro_listener_before (utt : string) :
  before_normalization intro objects utterances (PragmaticListener utt)
  = Ok (Arr2 (map (map Finite) intro_listener_weights)).
Proof.
  unfold before_normalization, Intro.listener_vals.
  unfold objects at 2. cbn [for_each].
  destruct (intro_speaker_at blue_square 1 0 Rlt_0_1 eq_refl) as [df0 ->].
  destruct (intro_speaker_at blue_circle 1 1 Rlt_0_1 eq_refl) as [df1 ->].
  destruct (intro_speaker_at green_square 1 2 Rlt_0_1 eq_refl) as [df2 ->].
  cbn [bind values nth intro_weights normalized map
       np_array T hd List.length seq column].
  rewrite !plain_weight_1 by lra.
  unfold Rsum, intro_listener_weights. cbn [fold_left map].
  table_field.
Qed.
Lemma run_listener_weights (nb : notebook) (utt : string) (i : nat)
  (ws : list (list R)) :
  before_normalization nb objects utterances (PragmaticListener utt)
    = Ok (Arr2 (map (map Finite) ws)) ->
  position utt utterances = Some i ->
  Rsum (nth i ws []) <> 0 ->
  exists df,
    run nb objects utterances (PragmaticListener utt) =
      Ok (df, {| values := normalized (nth i ws []);
                 labels := ["blue square"; "blue circle"; "green square"];
                 name := utt |}).
Proof. intros Hb Hi Hs. exact (run_weights _ _ _ _ _ _ Hb Hi Hs). Qed.

Lemma div_lt_div (x y s : R) : 0 < s -> x < y -> x / s < y / s.
Proof.
  intros Hs Hxy. unfold Rdiv. apply Rmult_lt_compat_r; [|assumption].
  now apply Rinv_0_lt_compat.
Qed.

Ltac numerals :=
  unfold Tutorial.speaker_epsilon, Tutorial.listener_epsilon in *.











(** ** Sharpening *)

Lemma exp_le (x y : R) : x <= y -> exp x <= exp y.
Proof.
  intros [H| ->]; [left; now apply exp_increasing|right; reflexivity].
Qed.






Lemma div_le_div (x y s : R) : 0 < s -> x <= y -> x / s <= y / s.
Proof.
  intros Hs H. apply Rmult_le_compat_r; [|assumption].
  left. now apply Rinv_0_lt_compat.
Qed.










(** ** A world with an utterance that is true of nothing *)

Lemma red_well_formed : well_formed objects utterances_red.
Proof.
  repeat split; try discriminate.
  - repeat constructor; simpl; intuition discriminate.
  - repeat constructor; simpl; intuition discriminate.
Qed.




(** ** Arithmetic within the range of doubles *)

Lemma exact_pragmatic_speaker (nb : notebook) (objs : list Obj.t)
  (utts : list string) (obj : Obj.t) (alpha : R) :
  Generic.pragmatic_speaker exact objs utts nb obj alpha
  = run nb objs utts (PragmaticSpeaker obj alpha).
Proof. destruct nb; reflexivity. Qed.

Lemma exact_run (nb : notebook) (objs : list Obj.t) (utts : list string)
  (q : query) :
  Generic.run exact objs utts nb q = run nb objs utts q.
Proof. destruct q, nb; reflexivity. Qed.

Lemma overflow_threshold_large : 2 ^ 1000 < overflow_threshold.
Proof. unfold overflow_threshold. lra. Qed.

Lemma overflow_id (r : R) :
  Rabs r < overflow_threshold -> overflow r = Finite r.
Proof.
  intros H. apply Rabs_def2 in H. unfold overflow.
  destruct (Rle_dec overflow_threshold r); [lra|].
  destruct (Rle_dec r (- overflow_threshold)); [lra|reflexivity].
Qed.

Lemma confine_id (r : R) :
  underflow_threshold < Rabs r -> Rabs r < overflow_threshold ->
  confine r = Finite r.
Proof.
  intros Hlo Hhi. unfold confine.
  destruct (Rle_dec (Rabs r) underflow_threshold); [lra|].
  now apply overflow_id.
Qed.

Lemma confine_zero (r : R) :
  Rabs r <= underflow_threshold -> confine r = Finite 0.
Proof.
  intros H. unfold confine.
  destruct (Rle_dec (Rabs r) underflow_threshold); [reflexivity|lra].
Qed.

Lemma confine_ordinary (r : R) : ordinary r -> confine r = Finite r.
Proof.
  intros [->|[Hlo Hhi]].
  - apply confine_zero. rewrite Rabs_R0. unfold underflow_threshold.
    left. apply Rinv_0_lt_compat, pow_lt. lra.
  - apply confine_id.
    + unfold underflow_threshold. lra.
    + pose proof overflow_threshold_large. lra.
Qed.


Lemma ordinary_between (r : R) :
  / 2 ^ 1000 <= r <= 2 ^ 1000 -> ordinary r.
Proof.
  intros [Hlo Hhi]. right.
  assert (0 < / 2 ^ 1000) by (apply Rinv_0_lt_compat, pow_lt; lra).
  rewrite Rabs_pos_eq by lra. lra.
Qed.

(** *** Sums and rows *)

Lemma double_fold_add (rs : list R) (acc : R) :
  0 <= acc -> Forall (fun r => 0 <= r) rs -> acc + Rsum rs <= 2 ^ 1000 ->
  fold_left (arith_add double_range) (map Finite rs) (Finite acc)
  = Finite (acc + Rsum rs).
Proof.
  intros Hacc Hrs. revert acc Hacc.
  induction Hrs as [|r rs Hr Hrs IH]; intros acc Hacc Hsum; simpl.
  - unfold Rsum. simpl. f_equal. lra.
  - rewrite Rsum_cons in Hsum. pose proof (Rsum_nonnegative rs Hrs) as Hnn.
    rewrite overflow_id.
    + rewrite IH by lra. rewrite Rsum_cons. f_equal. lra.
    + pose proof overflow_threshold_large. rewrite Rabs_pos_eq by lra. lra.
Qed.

Lemma double_np_sum (rs : list R) :
  Forall (fun r => 0 <= r) rs -> Rsum rs <= 2 ^ 1000 ->
  Generic.np_sum double_range (map Finite rs) = Finite (Rsum rs).
Proof.
  intros Hrs Hsum. unfold Generic.np_sum.
  rewrite double_fold_add; trivial; [f_equal|..]; lra.
Qed.

Lemma In_le_Rsum (rs : list R) (r : R) :
  Forall (fun x => 0 <= x) rs -> In r rs -> r <= Rsum rs.
Proof.
  induction 1 as [|x rs Hx Hrs IH]; intros Hin; [contradiction|].
  rewrite Rsum_cons. pose proof (Rsum_nonnegative rs Hrs).
  destruct Hin as [->|Hin]; [lra|]. specialize (IH Hin). lra.
Qed.

(** A row of weights that are zero or at least [lo], with a total of at
    most [hi], is normalised by double-range arithmetic as by exact
    arithmetic when [lo / hi] is not too small for a double. *)
Lemma double_normalize_row_between (lo hi : R) (rs : list R) :
  0 < lo -> hi <= 2 ^ 1000 -> / 2 ^ 1000 <= lo / hi ->
  Forall (fun r => r = 0 \/ lo <= r) rs ->
  0 < Rsum rs -> Rsum rs <= hi ->
  Generic.normalize_row double_range (map Finite rs) = normalized rs.
Proof.
  intros Hlo Hhi Hratio Hrs Hpos Hsum.
  assert (Hnn : Forall (fun r => 0 <= r) rs).
  { apply Forall_impl with (2 := Hrs). intros r [->|Hr]; lra. }
  unfold Generic.normalize_row, normalized.
  rewrite double_np_sum by (trivial; lra). rewrite map_map.
  apply map_ext_in. intros r Hin. cbn [arith_div double_range].
  rewrite fdiv_finite by lra. cbn [through]. apply confine_ordinary.
  rewrite Forall_forall in Hrs. destruct (Hrs r Hin) as [->|Hr].
  - left. unfold Rdiv. apply Rmult_0_l.
  - apply ordinary_between. pose proof (In_le_Rsum rs r Hnn Hin) as Hle.
    split.
    + apply Rle_trans with (lo / hi); [assumption|].
      apply Rle_trans with (r / hi).
      * apply div_le_div; lra.
      * unfold Rdiv. apply Rmult_le_compat_l; [lra|].
        apply Rinv_le_contravar; assumption.
    + apply Rle_trans with 1.
      * apply Rmult_le_reg_r with (Rsum rs); [assumption|].
        unfold Rdiv. rewrite Rmult_assoc, Rinv_l by lra. lra.
      * apply pow_R1_Rle. lra.
Qed.

Lemma double_normalize_row (rs : list R) :
  Forall (fun r => r = 0 \/ / 2 ^ 900 <= r) rs ->
  0 < Rsum rs -> Rsum rs <= 2 ^ 90 ->
  Generic.normalize_row double_range (map Finite rs) = normalized rs.
Proof.
  apply double_normalize_row_between.
  - apply Rinv_0_lt_compat, pow_lt. lra.
  - lra.
  - lra.
Qed.


Lemma generic_normalize_rows_Arr2 (A : arithmetic) (m : matrix) :
  Generic.normalize_rows A (Arr2 m) = Ok (map (Generic.normalize_row A) m).
Proof.
  unfold Generic.normalize_rows. apply f_equal.
  induction m as [|row m IH]; simpl; [reflexivity|].
  now rewrite IH.
Qed.


Lemma double_normalize_rows (ws : list (list R)) :
  Forall (fun rs => Forall (fun r => r = 0 \/ / 2 ^ 900 <= r) rs /\
                    0 < Rsum rs /\ Rsum rs <= 2 ^ 90) ws ->
  Generic.normalize_rows double_range (Arr2 (map (map Finite) ws))
  = normalize_rows (Arr2 (map (map Finite) ws)).
Proof.
  intros H. rewrite generic_normalize_rows_Arr2, normalize_rows_Arr2.
  apply f_equal. rewrite !map_map. apply map_ext_in. intros rs Hin.
  rewrite Forall_forall in H. destruct (H rs Hin) as (Hrs & Hpos & Hsum).
  rewrite double_normalize_row by assumption.
  rewrite normalize_row_finite by lra. reflexivity.
Qed.

Ltac weights_in_range :=
  repeat (apply Forall_cons; [first [left; lra | right; lra]|]);
  apply Forall_nil.

(** *** The literal listener of the notebooks' world *)

Lemma double_literal_listener (u : string) :
  Generic.literal_listener double_range objects utterances u
  = literal_listener objects utterances u.
Proof.
  unfold Generic.literal_listener, literal_listener.
  change (all_counts objects utterances) with (map (map Finite) literal_counts).
  rewrite double_normalize_rows; [reflexivity|].
  unfold literal_counts.
  repeat (apply Forall_cons;
          [split; [weights_in_range|unfold Rsum; simpl; lra]|]).
  apply Forall_nil.
Qed.

Lemma generic_speaker_vals (A : arithmetic) (nb : notebook) (alpha : R) :
  (forall u, Generic.literal_listener A objects utterances u
             = literal_listener objects utterances u) ->
  Generic.speaker_vals A objects utterances nb alpha
  = Ok (map (map (Generic.speaker_weight A nb alpha)) L0_table).
Proof.
  intros Hll. unfold Generic.speaker_vals. unfold utterances at 2.
  cbn [for_each]. rewrite !Hll.
  rewrite (literal_listener_at "blue" 0 eq_refl),
          (literal_listener_at "green" 1 eq_refl),
          (literal_listener_at "square" 2 eq_refl),
          (literal_listener_at "circle" 3 eq_refl).
  reflexivity.
Qed.

(** *** Logarithms and powers *)

Lemma ln_upper (x : R) : 0 < x -> ln x <= x - 1.
Proof.
  intros Hx. pose proof (exp_ineq1_le (ln x)) as H.
  rewrite exp_ln in H by assumption. lra.
Qed.

Lemma ln_lower (x : R) : 0 < x -> 1 - / x <= ln x.
Proof.
  intros Hx. pose proof (exp_ineq1_le (- ln x)) as H.
  rewrite exp_Ropp, exp_ln in H by assumption. lra.
Qed.

Lemma exp_INR_ln (n : nat) (y : R) : 0 < y -> exp (INR n * ln y) = y ^ n.
Proof. intros Hy. rewrite <- Rpower_pow by assumption. reflexivity. Qed.

(** [y ^ alpha] lies between [1] and [y ^ n] when [0 <= alpha <= n]. *)
Lemma weight_between_below (alpha y : R) (n : nat) :
  0 < y <= 1 -> 0 <= alpha <= INR n ->
  y ^ n <= exp (alpha * ln y) <= 1.
Proof.
  intros [Hy Hy1] [Ha Han].
  assert (Hl : ln y <= 0) by (pose proof (ln_upper y Hy); lra).
  rewrite <- (exp_INR_ln n y Hy), <- exp_0. split; apply exp_le; nra.
Qed.

Lemma weight_between_above (alpha y : R) (n : nat) :
  1 <= y -> 0 <= alpha <= INR n ->
  1 <= exp (alpha * ln y) <= y ^ n.
Proof.
  intros Hy [Ha Han].
  assert (Hy0 : 0 < y) by lra.
  assert (Hl : 0 <= ln y).
  { pose proof (ln_lower y Hy0).
    assert (/ y <= 1) by (rewrite <- Rinv_1; apply Rinv_le_contravar; lra).
    lra. }
  rewrite <- (exp_INR_ln n y Hy0), <- exp_0. split; apply exp_le; nra.
Qed.

(** *** Speaker weights *)

(** The numbers the speakers take the logarithm of lie between [2^-30] and
    [2] and are one or at least [2^-40] away from one; their logarithms,
    and the products of these with an [alpha] between [1] and [2^20], stay
    inside the range of doubles. *)
Lemma ln_ordinary (y : R) :
  / 2 ^ 30 <= y <= 2 -> y = 1 \/ / 2 ^ 40 <= Rabs (y - 1) ->
  ln y = 0 \/ / 2 ^ 41 <= Rabs (ln y) <= 2 ^ 30.
Proof.
  intros [Hlo Hhi] Hy.
  assert (H30 : 0 < / 2 ^ 30) by (apply Rinv_0_lt_compat, pow_lt; lra).
  assert (H40 : 0 < / 2 ^ 40) by (apply Rinv_0_lt_compat, pow_lt; lra).
  assert (Hy0 : 0 < y) by lra.
  pose proof (ln_upper y Hy0) as Hup. pose proof (ln_lower y Hy0) as Hdn.
  destruct Hy as [->|Hy]; [left; apply ln_1|right].
  destruct (Rle_or_lt y 1) as [Hle|Hgt].
  - rewrite Rabs_left1 in Hy by lra.
    assert (Hinv : / y <= 2 ^ 30).
    { rewrite <- (Rinv_inv (2 ^ 30)). apply Rinv_le_contravar; lra. }
    rewrite Rabs_left1 by lra. lra.
  - rewrite Rabs_pos_eq in Hy by lra.
    assert (Hinv : / 2 <= / y) by (apply Rinv_le_contravar; lra).
    assert (Hmul : 1 - / y = / y * (y - 1)) by (field; lra).
    assert (Hge : / 2 * / 2 ^ 40 <= / y * (y - 1)).
    { apply Rmult_le_compat; lra. }
    rewrite Rabs_pos_eq by lra. lra.
Qed.

Lemma double_utility (alpha y : R) :
  1 <= Rabs alpha <= 2 ^ 20 ->
  / 2 ^ 30 <= y <= 2 -> y = 1 \/ / 2 ^ 40 <= Rabs (y - 1) ->
  arith_mul double_range (Finite alpha) (arith_log double_range (Finite y))
  = Finite (alpha * ln y).
Proof.
  intros [Ha Ha'] Hy Hy1.
  assert (H30 : 0 < / 2 ^ 30) by (apply Rinv_0_lt_compat, pow_lt; lra).
  assert (H41 : 0 < / 2 ^ 41) by (apply Rinv_0_lt_compat, pow_lt; lra).
  pose proof (ln_ordinary y Hy Hy1) as Hln.
  cbn [arith_mul arith_log double_range].
  rewrite flog_pos by lra. cbn [through].
  rewrite confine_ordinary.
  - cbn [fmul through]. apply confine_ordinary.
    destruct Hln as [->|[Hlo Hhi]]; [left; lra|right].
    rewrite Rabs_mult. split.
    + apply Rle_trans with (/ 2 ^ 41); [lra|].
      apply Rle_trans with (1 * Rabs (ln y)); [lra|].
      apply Rmult_le_compat_r; [apply Rabs_pos|lra].
    + apply Rle_trans with (2 ^ 20 * 2 ^ 30); [|lra].
      apply Rmult_le_compat; lra.
  - destruct Hln as [->|[Hlo Hhi]]; [now left|right]. lra.
Qed.

Lemma double_weight_moderate (alpha y : R) :
  1 <= alpha <= 30 ->
  / 2 ^ 30 <= y <= 2 -> y = 1 \/ / 2 ^ 40 <= Rabs (y - 1) ->
  arith_exp double_range
    (arith_mul double_range (Finite alpha)
       (arith_log double_range (Finite y)))
  = Finite (exp (alpha * ln y)) /\
  / 2 ^ 900 <= exp (alpha * ln y) <= 2 ^ 30.
Proof.
  intros Ha Hy Hy1.
  assert (H30 : 0 < / 2 ^ 30) by (apply Rinv_0_lt_compat, pow_lt; lra).
  assert (Hn : 0 <= alpha <= INR 30) by (simpl; lra).
  assert (Hb : / 2 ^ 900 <= exp (alpha * ln y) <= 2 ^ 30).
  { destruct (Rle_or_lt y 1) as [Hle|Hgt].
    - destruct (weight_between_below alpha y 30) as [Hlo Hhi]; [lra|exact Hn|].
      split; [|lra].
      apply Rle_trans with ((/ 2 ^ 30) ^ 30); [lra|].
      apply Rle_trans with (y ^ 30); [|exact Hlo].
      apply pow_incr. lra.
    - destruct (weight_between_above alpha y 30) as [Hlo Hhi]; [lra|exact Hn|].
      assert (0 < / 2 ^ 900) by (apply Rinv_0_lt_compat, pow_lt; lra).
      split; [lra|].
      apply Rle_trans with (y ^ 30); [exact Hhi|]. apply pow_incr. lra. }
  split; [|exact Hb].
  rewrite double_utility by (trivial; rewrite Rabs_pos_eq; lra).
  cbn [arith_exp double_range fexp through].
  apply confine_ordinary, ordinary_between. lra.
Qed.


Lemma double_add_epsilon (p : R) :
  0 <= p <= 1 ->
  arith_add double_range (Finite p) (Finite Tutorial.speaker_epsilon)
  = Finite (p + Tutorial.speaker_epsilon).
Proof.
  intros Hp. cbn [arith_add double_range fadd through].
  apply overflow_id. pose proof overflow_threshold_large.
  pose proof speaker_epsilon_pos. unfold Tutorial.speaker_epsilon in *.
  rewrite Rabs_pos_eq by lra. lra.
Qed.

Lemma double_speaker_weight (nb : notebook) (alpha p : R) :
  1 <= alpha <= 30 -> In p [0; 1/2; 1] ->
  Generic.speaker_weight double_range nb alpha (Finite p)
  = Generic.speaker_weight exact nb alpha (Finite p) /\
  (Generic.speaker_weight exact nb alpha (Finite p) = Finite 0 \/
   exists w, Generic.speaker_weight exact nb alpha (Finite p) = Finite w /\
             / 2 ^ 900 <= w <= 2 ^ 30).
Proof.
  intros Ha Hp. pose proof speaker_epsilon_pos as He.
  assert (H30 : / 2 ^ 30 <= Tutorial.speaker_epsilon)
    by (unfold Tutorial.speaker_epsilon; lra).
  assert (H40 : / 2 ^ 40 <= Tutorial.speaker_epsilon)
    by (unfold Tutorial.speaker_epsilon; lra).
  assert (He1 : Tutorial.speaker_epsilon <= / 4)
    by (unfold Tutorial.speaker_epsilon; lra).
  assert (Hp1 : 0 <= p <= 1) by (simpl in Hp; lra).
  destruct nb; unfold Generic.speaker_weight.
  - rewrite double_add_epsilon by assumption.
    destruct (double_weight_moderate alpha (p + Tutorial.speaker_epsilon))
      as [Hw Hb]; [assumption|lra| |].
    { right. destruct Hp as [<-|[<-|[<-|[]]]].
      - rewrite Rabs_left by lra. lra.
      - rewrite Rabs_left by lra. lra.
      - rewrite Rabs_pos_eq by lra. lra. }
    rewrite Hw. cbn [arith_exp arith_mul arith_log arith_add exact fadd].
    rewrite flog_pos by lra. cbn [fmul fexp]. split; [reflexivity|].
    right. eexists. split; [reflexivity|exact Hb].
  - destruct Hp as [<-|[<-|[<-|[]]]].
    + cbn [arith_exp arith_mul arith_log double_range exact].
      rewrite flog_zero. cbn [through fmul].
      rewrite Rsign_pos by lra. cbn [through fexp].
      rewrite confine_ordinary by now left. split; [reflexivity|now left].
    + destruct (double_weight_moderate alpha (1/2)) as [Hw Hb];
        [assumption|lra| |].
      { right. rewrite Rabs_left by lra. lra. }
      rewrite Hw. cbn [arith_exp arith_mul arith_log exact].
      rewrite flog_pos by lra. cbn [fmul fexp]. split; [reflexivity|].
      right. eexists. split; [reflexivity|exact Hb].
    + destruct (double_weight_moderate alpha 1) as [Hw Hb];
        [assumption|lra|now left|].
      rewrite Hw. cbn [arith_exp arith_mul arith_log exact].
      rewrite flog_pos by lra. cbn [fmul fexp]. split; [reflexivity|].
      right. eexists. split; [reflexivity|exact Hb].
Qed.

(** For [alpha] between 1 and 30 the weights of the notebooks' world stay
    inside the range of doubles. *)
Lemma double_speaker_vals (nb : notebook) (alpha : R) :
  1 <= alpha <= 30 ->
  Generic.speaker_vals double_range objects utterances nb alpha
  = Generic.speaker_vals exact objects utterances nb alpha.
Proof.
  intros Ha.
  rewrite (generic_speaker_vals double_range) by exact double_literal_listener.
  rewrite (generic_speaker_vals exact) by reflexivity.
  apply f_equal. unfold L0_table. cbn [map].
  assert (H0 := proj1 (double_speaker_weight nb alpha 0 Ha
                         (or_introl eq_refl))).
  assert (H1 := proj1 (double_speaker_weight nb alpha (1/2) Ha
                         (or_intror (or_introl eq_refl)))).
  assert (H2 := proj1 (double_speaker_weight nb alpha 1 Ha
                         (or_intror (or_intror (or_introl eq_refl))))).
  now rewrite H0, H1, H2.
Qed.

Lemma weights_rows_in_range (nb : notebook) (alpha : R) (m : matrix) :
  1 <= alpha <= 30 ->
  T (np_array (map (map (Generic.speaker_weight exact nb alpha)) L0_table))
  = Arr2 m ->
  exists ws, m = map (map Finite) ws /\
    Forall (fun rs => Forall (fun r => r = 0 \/ / 2 ^ 900 <= r) rs /\
                      0 < Rsum rs /\ Rsum rs <= 2 ^ 90) ws.
Proof.
  intros Ha. unfold L0_table.
  cbn [map np_array T hd List.length seq column nth].
  destruct (double_speaker_weight nb alpha 0 Ha (or_introl eq_refl))
    as [_ H0].
  destruct (double_speaker_weight nb alpha (1/2) Ha
              (or_intror (or_introl eq_refl))) as [_ H1].
  destruct (double_speaker_weight nb alpha 1 Ha
              (or_intror (or_intror (or_introl eq_refl)))) as [_ H2].
  assert (Hpos : forall p w,
            Generic.speaker_weight exact nb alpha (Finite p) = Finite w ->
            In p [1/2; 1] -> / 2 ^ 900 <= w <= 2 ^ 30).
  { intros p w Hw Hp.
    assert (Hin : In p [0; 1/2; 1]) by (simpl in *; tauto).
    destruct (double_speaker_weight nb alpha p Ha Hin) as [_ [Hz|(w' & Hw' & Hb)]].
    - exfalso. rewrite Hz in Hw. injection Hw as <-.
      destruct nb; unfold Generic.speaker_weight in Hz;
        cbn [arith_exp arith_mul arith_log arith_add exact fadd] in Hz;
        pose proof speaker_epsilon_pos;
        rewrite flog_pos in Hz by (simpl in Hp; lra);
        cbn [fmul fexp] in Hz; injection Hz as Hz;
        match type of Hz with exp ?x = 0 => pose proof (exp_pos x) end; lra.
    - rewrite Hw in Hw'. now injection Hw' as <-. }
  assert (H900 : 0 < / 2 ^ 900) by (apply Rinv_0_lt_compat, pow_lt; lra).
  destruct (Generic.speaker_weight exact nb alpha (Finite (1/2)))
    as [a| | |] eqn:Ea; try (destruct H1 as [H1|(w & H1 & _)]; discriminate).
  destruct (Generic.speaker_weight exact nb alpha (Finite 1))
    as [b| | |] eqn:Eb; try (destruct H2 as [H2|(w & H2 & _)]; discriminate).
  destruct (Generic.speaker_weight exact nb alpha (Finite 0))
    as [c| | |] eqn:Ec; try (destruct H0 as [H0|(w & H0 & _)]; discriminate).
  pose proof (Hpos (1/2) a Ea (or_introl eq_refl)) as Hab.
  pose proof (Hpos 1 b Eb (or_intror (or_introl eq_refl))) as Hbb.
  assert (Hcb : c = 0 \/ / 2 ^ 900 <= c <= 2 ^ 30).
  { destruct H0 as [[= ->]|(w & [= <-] & Hb)]; [now left|now right]. }
  intros [= <-]. exists [[a; c; a; c]; [a; c; c; b]; [c; b; a; c]].
  split; [reflexivity|].
  repeat (apply Forall_cons;
          [split; [repeat (apply Forall_cons; [lra|]); apply Forall_nil
                  |unfold Rsum; simpl; lra]|]).
  apply Forall_nil.
Qed.

(** Within the bound, the speaker of each notebook is the same function
    over double-range arithmetic as over exact arithmetic. *)
Lemma double_speaker_agrees (nb : notebook) (obj : Obj.t) (alpha : R) :
  1 <= alpha <= 30 ->
  Generic.pragmatic_speaker double_range objects utterances nb obj alpha
  = run nb objects utterances (PragmaticSpeaker obj alpha).
Proof.
  intros Ha. rewrite <- exact_pragmatic_speaker.
  unfold Generic.pragmatic_speaker. rewrite double_speaker_vals by assumption.
  rewrite (generic_speaker_vals exact) by reflexivity. cbn [bind].
  destruct (T_of_rows (map (map (Generic.speaker_weight exact nb alpha)) L0_table))
    as [m Hm]; [discriminate|].
  destruct (weights_rows_in_range nb alpha m Ha Hm) as (ws & -> & Hws).
  rewrite Hm. rewrite double_normalize_rows by assumption. reflexivity.
Qed.

(** *** Beyond the range: [alpha = 1100] *)




(** *** The pragmatic listener of the notebooks' world *)

Lemma double_add_listener_epsilon (rs : list R) :
  Forall (fun r => 0 <= r <= 1) rs ->
  map (fun p => arith_add double_range p (Finite Tutorial.listener_epsilon))
      (map Finite rs)
  = map (fun p => fadd p (Finite Tutorial.listener_epsilon)) (map Finite rs).
Proof.
  intros H. rewrite !map_map. apply map_ext_in. intros r Hr.
  rewrite Forall_forall in H. specialize (H r Hr).
  cbn [arith_add double_range fadd through]. apply overflow_id.
  pose proof overflow_threshold_large. pose proof listener_epsilon_pos.
  unfold Tutorial.listener_epsilon in *. rewrite Rabs_pos_eq by lra. lra.
Qed.

Lemma normalized_unit (rs : list R) :
  Forall (fun r => 0 <= r) rs -> 0 < Rsum rs ->
  exists qs, normalized rs = map Finite qs /\
             Forall (fun r => 0 <= r <= 1) qs.
Proof.
  intros Hnn Hpos. exists (map (fun r => r / Rsum rs) rs). split.
  - unfold normalized. now rewrite map_map.
  - apply Forall_map, Forall_forall. intros r Hin.
    pose proof (In_le_Rsum rs r Hnn Hin) as Hle.
    rewrite Forall_forall in Hnn. specialize (Hnn r Hin). split.
    + apply Rmult_le_pos; [assumption|].
      left. now apply Rinv_0_lt_compat.
    + apply Rmult_le_reg_r with (Rsum rs); [assumption|].
      unfold Rdiv. rewrite Rmult_assoc, Rinv_l by lra. lra.
Qed.

Lemma speaker_weights_nonnegative (nb : notebook) (alpha : R) (i : nat) :
  Forall (fun r => 0 <= r)
         (nth i (match nb with
                 | tutorial => tutorial_weights alpha
                 | intro => intro_weights alpha
                 end) []).
Proof.
  pose proof (stabilized_weight_pos alpha (1/2)).
  pose proof (stabilized_weight_pos alpha 1).
  pose proof (stabilized_weight_pos alpha 0).
  pose proof (plain_weight_pos alpha (1/2)).
  pose proof (plain_weight_pos alpha 1).
  destruct nb, i as [|[|[|i]]]; simpl;
    repeat (apply Forall_cons; [lra|]); try apply Forall_nil.
  all: destruct i; apply Forall_nil.
Qed.

Lemma double_listener_vals (nb : notebook) :
  Generic.listener_vals double_range objects utterances nb
  = Generic.listener_vals exact objects utterances nb.
Proof.
  assert (H1 : 1 <= 1 <= 30) by lra.
  unfold Generic.listener_vals. unfold objects at 2 4. cbn [for_each].
  rewrite !double_speaker_agrees by exact H1.
  rewrite !exact_pragmatic_speaker.
  destruct nb; [|reflexivity]. cbn [run].
  destruct (tutorial_speaker_at blue_square 1 0 eq_refl) as [df0 ->].
  destruct (tutorial_speaker_at blue_circle 1 1 eq_refl) as [df1 ->].
  destruct (tutorial_speaker_at green_square 1 2 eq_refl) as [df2 ->].
  cbn [bind values].
  destruct (normalized_unit (nth 0 (tutorial_weights 1) [])
              (speaker_weights_nonnegative tutorial 1 0)
              (tutorial_weights_pos 1 0 ltac:(lia))) as (q0 & -> & Hq0).
  destruct (normalized_unit (nth 1 (tutorial_weights 1) [])
              (speaker_weights_nonnegative tutorial 1 1)
              (tutorial_weights_pos 1 1 ltac:(lia))) as (q1 & -> & Hq1).
  destruct (normalized_unit (nth 2 (tutorial_weights 1) [])
              (speaker_weights_nonnegative tutorial 1 2)
              (tutorial_weights_pos 1 2 ltac:(lia))) as (q2 & -> & Hq2).
  rewrite !double_add_listener_epsilon by assumption. reflexivity.
Qed.

Lemma double_listener_agrees (nb : notebook) (utt : string) :
  Generic.pragmatic_listener double_range objects utterances nb utt
  = run nb objects utterances (PragmaticListener utt).
Proof.
  rewrite <- exact_run. cbn [Generic.run].
  unfold Generic.pragmatic_listener. rewrite double_listener_vals.
  assert (Hb : exists ws,
             (all_vals <- Generic.listener_vals exact objects utterances nb ;;
              Ok (T (np_array all_vals)))
             = Ok (Arr2 (map (map Finite) ws)) /\
             Forall (fun rs => Forall (fun r => r = 0 \/ / 2 ^ 900 <= r) rs /\
                               0 < Rsum rs /\ Rsum rs <= 2 ^ 90) ws).
  { destruct nb.
    - exists tutorial_listener_weights. split.
      + exact (tutorial_listener_before utt).
      + unfold tutorial_listener_weights. cbv zeta. numerals.
        repeat (apply Forall_cons;
                [split; [weights_in_range|unfold Rsum; simpl; lra]|]).
        apply Forall_nil.
    - exists intro_listener_weights. split.
      + exact (intro_listener_before utt).
      + unfold intro_listener_weights.
        repeat (apply Forall_cons;
                [split; [weights_in_range|unfold Rsum; simpl; lra]|]).
        apply Forall_nil. }
  destruct Hb as (ws & Hb & Hws).
  destruct (Generic.listener_vals exact objects utterances nb) as [vals|e];
    [|discriminate].
  cbn [bind] in Hb |- *. injection Hb as Hb. rewrite Hb.
  rewrite double_normalize_rows by assumption. reflexivity.
Qed.

(** In the world of the notebooks, a query whose [alpha] (if it has one)
    lies between 1 and 30 is answered by double-range arithmetic as by
    exact arithmetic: no intermediate result leaves the range. *)
Lemma double_run_agrees (nb : notebook) (q : query) :
  (forall obj alpha, q = PragmaticSpeaker obj alpha -> 1 <= alpha <= 30) ->
  Generic.run double_range objects utterances nb q
  = run nb objects utterances q.
Proof.
  intros Ha. destruct q as [utt|obj alpha|utt]; cbn [Generic.run].
  - apply double_literal_listener.
  - apply double_speaker_agrees. now apply (Ha obj).
  - apply double_listener_agrees.
Qed.

(** *** Distributions *)

Lemma normalized_distribution (rs : list R) :
  Forall (fun r => 0 <= r) rs -> 0 < Rsum rs -> distribution (normalized rs).
Proof.
  intros Hnn Hpos.
  destruct (normalized_unit rs Hnn Hpos) as (qs & Hq & Hqs). split.
  - rewrite Hq. apply Forall_map.
    apply Forall_impl with (2 := Hqs). now intros r Hr.
  - unfold normalized.
    rewrite <- (map_map (fun r => r / Rsum rs) Finite), np_sum_finite.
    rewrite Rsum_scale. simpl.
    replace (Rsum rs / Rsum rs - 1) with 0 by (field; lra).
    rewrite Rabs_R0. lra.
Qed.




(** *** The speaker for every [alpha] of moderate size *)






(** *** Beyond the range: [alpha = -3081/90], about [-34.23] *)






(** *** Beyond the range: [alpha = -40] *)



(** *** Rows of the speaker of [intro-to-rsa.ipynb] that are not finite *)






(** * The claims *)







(** C3.  Asked for the blue square with [alpha = 1], the speaker of the
    expository notebook answers [(1/2 + e) / (1 + 4 e)] for "blue" and
    "square" and [e / (1 + 4 e)] for "green" and "circle", [e] being its
    [epsilon]: the former is within [1e-9] of one half, the latter is
    positive and at most [1e-9].  The speaker of [intro-to-rsa.ipynb]
    answers one half and exactly zero. *)
Theorem speaker_blue_square :
  let e := Tutorial.speaker_epsilon in
  (exists df,
     Tutorial.pragmatic_speaker objects utterances blue_square 1 =
       Ok (df, {| values := [Finite ((1/2 + e) / (1 + 4 * e));
                             Finite (e / (1 + 4 * e));
                             Finite ((1/2 + e) / (1 + 4 * e));
                             Finite (e / (1 + 4 * e))];
                  labels := ["blue"; "green"; "square"; "circle"];
                  name := "blue square" |})) /\
  Rabs ((1/2 + e) / (1 + 4 * e) - 1/2) <= 1 / 1000000000 /\
  0 < e / (1 + 4 * e) <= 1 / 1000000000 /\
  (exists df,
     Intro.pragmatic_speaker objects utterances blue_square 1 =
       Ok (df, {| values := [Finite (1/2); Finite 0; Finite (1/2); Finite 0];
                  labels := ["blue"; "green"; "square"; "circle"];
                  name := "blue square" |})).
Proof.
  cbv zeta. pose proof speaker_epsilon_pos as He. repeat split.
  - destruct (tutorial_speaker_at blue_square 1 0 eq_refl) as [df ->].
    exists df. do 3 f_equal.
    cbn [nth tutorial_weights normalized map]. unfold Rsum. cbn [fold_left].
    rewrite !stabilized_weight_1 by lra. table_field.
  - apply Rabs_le. numerals. lra.
  - numerals. lra.
  - numerals. lra.
  - destruct (intro_speaker_at blue_square 1 0 Rlt_0_1 eq_refl) as [df ->].
    exists df. do 3 f_equal.
    cbn [nth intro_weights normalized map]. unfold Rsum. cbn [fold_left].
    rewrite !plain_weight_1 by lra. table_field.
Qed.

(** C4.  In both notebooks [pragmatic_listener("blue")] returns a
    distribution over the blue square, the blue circle and the green
    square: three probabilities that sum to one (within [1e-9]), of which
    the blue square's is strictly larger than the blue circle's, and the
    blue circle's strictly larger than the green square's.  Double-range
    arithmetic returns the same answer as exact arithmetic. *)
Theorem listener_blue_ordering (nb : notebook) :
  exists df blue_square_p blue_circle_p green_square_p,
    run nb objects utterances (PragmaticListener "blue") =
      Ok (df, {| values := [blue_square_p; blue_circle_p; green_square_p];
                 labels := ["blue square"; "blue circle"; "green square"];
                 name := "blue" |}) /\
    Generic.run double_range objects utterances nb (PragmaticListener "blue")
      = run nb objects utterances (PragmaticListener "blue") /\
    distribution [blue_square_p; blue_circle_p; green_square_p] /\
    vlt blue_circle_p blue_square_p /\
    vlt green_square_p blue_circle_p.
Proof.
  assert (Hd : Generic.run double_range objects utterances nb
                 (PragmaticListener "blue")
               = run nb objects utterances (PragmaticListener "blue")).
  { apply double_run_agrees. discriminate. }
  destruct nb.
  - destruct (run_listener_weights tutorial "blue" 0 tutorial_listener_weights
                (tutorial_listener_before "blue") eq_refl) as [df Hdf].
    { unfold Rsum. simpl. numerals. lra. }
    rewrite Hd, Hdf. eexists _, _, _, _. split; [reflexivity|].
    split; [reflexivity|]. split.
    + apply (normalized_distribution (nth 0 tutorial_listener_weights [])).
      * simpl. numerals. repeat (apply Forall_cons; [lra|]). apply Forall_nil.
      * unfold Rsum. simpl. numerals. lra.
    + unfold vlt, Rsum. cbn [nth tutorial_listener_weights fold_left].
      split; apply div_lt_div; numerals; lra.
  - destruct (run_listener_weights intro "blue" 0 intro_listener_weights
                (intro_listener_before "blue") eq_refl) as [df Hdf].
    { unfold Rsum. simpl. lra. }
    rewrite Hd, Hdf. eexists _, _, _, _. split; [reflexivity|].
    split; [reflexivity|]. split.
    + apply (normalized_distribution (nth 0 intro_listener_weights [])).
      * simpl. repeat (apply Forall_cons; [lra|]). apply Forall_nil.
      * unfold Rsum. simpl. lra.
    + unfold vlt, Rsum. cbn [nth intro_listener_weights fold_left].
      split; apply div_lt_div; lra.
Qed.

(** C5.  In the world of the notebooks [literal_listener("square")] returns
    one half for the blue square, zero for the blue circle and one half for
    the green square. *)
Theorem literal_listener_square :
  literal_listener objects utterances "square" =
    Ok ({| data := L0_table;
           columns := ["blue square"; "blue circle"; "green square"];
           index := ["blue"; "green"; "square"; "circle"] |},
        {| values := [Finite (1/2); Finite 0; Finite (1/2)];
           labels := ["blue square"; "blue circle"; "green square"];
           name := "square" |}).
Proof. exact (literal_listener_at "square" 2 eq_refl). Qed.




(** C7.  A query for a label that is not registered (an utterance that is
    not among the utterances, for the two listeners; a state whose display
    string is not among those of the objects, for the speaker) raises
    [KeyError] with that label, and returns no row.  Both notebooks, every
    well-formed world, every [alpha]. *)
Theorem unregistered_key_raises (nb : notebook) (objs : list Obj.t)
  (utts : list string) (q : query) :
  well_formed objs utts -> ~ registered objs utts q ->
  run nb objs utts q = Raise (KeyError (key q)).
Proof.
  intros Hwf Hreg. destruct (before_ok nb objs utts q Hwf) as [m Hm].
  now apply (run_unregistered _ _ _ _ m).
Qed.

Lemma unregistered_key_raises_witness :
  well_formed objects utterances /\
  ~ registered objects utterances
      (PragmaticSpeaker {| Obj.color := "red"; Obj.shape := "square";
                           Obj.string := "red square" |} 1) /\
  run intro objects utterances
    (PragmaticSpeaker {| Obj.color := "red"; Obj.shape := "square";
                         Obj.string := "red square" |} 1)
  = Raise (KeyError "red square").
Proof.
  assert (Hreg : ~ registered objects utterances
      (PragmaticSpeaker {| Obj.color := "red"; Obj.shape := "square";
                           Obj.string := "red square" |} 1)).
  { unfold registered. simpl. intuition discriminate. }
  split; [exact canonical_well_formed|]. split; [exact Hreg|].
  exact (unregistered_key_raises intro objects utterances _
           canonical_well_formed Hreg).
Defined.

(** C8.  When a registered utterance is true of no object, its row of
    counts sums to zero, [literal_listener] divides every count of the row
    by that zero, and the row it returns is NaN throughout: nothing guards
    the division. *)
Theorem vacuous_utterance_row (objs : list Obj.t) (utts : list string)
  (utt : string) :
  well_formed objs utts -> In utt utts ->
  (forall obj, In obj objs -> meaning obj utt = false) ->
  exists i df probs,
    position utt utts = Some i /\
    np_sum (nth i (all_counts objs utts) []) = Finite 0 /\
    literal_listener objs utts utt = Ok (df, probs) /\
    values probs = map (fun count => fdiv count (Finite 0))
                       (nth i (all_counts objs utts) []) /\
    values probs = repeat NaN (List.length objs) /\
    In NaN (values probs).
Proof.
  intros (Hobjs & _) Hin Hfalse.
  destruct (position_In _ _ Hin) as [i Hi]. exists i.
  destruct (position_nth _ _ _ Hi) as [Hlt Hnth].
  assert (Hrow : nth i (all_counts objs utts) [] = map (fun _ => Finite 0) objs).
  { unfold all_counts.
    rewrite (nth_indep _ [] (map (fun curr_obj : Obj.t =>
               if meaning curr_obj EmptyString then Finite 1 else Finite 0) objs))
      by now rewrite length_map.
    rewrite (map_nth (fun curr_utt => map (fun curr_obj : Obj.t =>
               if meaning curr_obj curr_utt then Finite 1 else Finite 0) objs)).
    rewrite Hnth. apply map_ext_in. intros o Ho. now rewrite Hfalse. }
  assert (Hsum : np_sum (nth i (all_counts objs utts) []) = Finite 0).
  { rewrite Hrow, <- (map_map (fun _ => 0) Finite), np_sum_finite.
    now rewrite Rsum_zeros. }
  assert (Hnan : normalize_row (nth i (all_counts objs utts) [])
                 = repeat NaN (List.length objs)).
  { unfold normalize_row. rewrite Hsum, Hrow, map_map.
    rewrite fdiv_zero_zero. clear. induction objs; simpl; congruence. }
  unfold literal_listener. rewrite normalize_rows_Arr2. simpl.
  unfold loc. simpl. rewrite Hi. simpl.
  eexists _, _. repeat split; trivial.
  - rewrite nth_normalize. unfold normalize_row. now rewrite Hsum.
  - now rewrite nth_normalize.
  - rewrite nth_normalize, Hnan.
    destruct objs; [congruence|]. now left.
Qed.

Lemma vacuous_utterance_row_witness :
  well_formed objects utterances_red /\ In "red" utterances_red /\
  (forall obj, In obj objects -> meaning obj "red" = false) /\
  exists i df probs,
    position "red" utterances_red = Some i /\
    np_sum (nth i (all_counts objects utterances_red) []) = Finite 0 /\
    literal_listener objects utterances_red "red" = Ok (df, probs) /\
    values probs = map (fun count => fdiv count (Finite 0))
                       (nth i (all_counts objects utterances_red) []) /\
    values probs = repeat NaN (List.length objects) /\
    In NaN (values probs).
Proof.
  assert (Hin : In "red" utterances_red) by (simpl; tauto).
  assert (Hfalse : forall obj, In obj objects -> meaning obj "red" = false).
  { intros obj [<-|[<-|[<-|[]]]]; reflexivity. }
  split; [exact red_well_formed|]. split; [exact Hin|]. split; [exact Hfalse|].
  exact (vacuous_utterance_row objects utterances_red "red"
           red_well_formed Hin Hfalse).
Defined.

(** C9.  Two registered queries to the same stage (with the same [alpha],
    for the speaker) return the same full table; each returns, as its
    second output, the row of that table that carries its own label.  Both
    notebooks, every well-formed world. *)
Theorem table_independent_of_query (nb : notebook) (objs : list Obj.t)
  (utts : list string) (q1 q2 : query) :
  well_formed objs utts -> same_stage q1 q2 ->
  registered objs utts q1 -> registered objs utts q2 ->
  exists df probs1 probs2 i1 i2,
    run nb objs utts q1 = Ok (df, probs1) /\
    run nb objs utts q2 = Ok (df, probs2) /\
    position (key q1) (index df) = Some i1 /\
    position (key q2) (index df) = Some i2 /\
    values probs1 = nth i1 (data df) [] /\
    values probs2 = nth i2 (data df) [].
Proof.
  intros Hwf Hsame Hr1 Hr2.
  destruct (before_ok nb objs utts q1 Hwf) as [m Hm1].
  destruct (before_same_stage nb objs utts q1 q2 Hsame) as (Hb & Hrows & Hcols).
  assert (Hm2 := Hm1). rewrite Hb in Hm2.
  rewrite (run_Arr2 _ _ _ _ _ Hm1), (run_Arr2 _ _ _ _ _ Hm2). cbv zeta.
  rewrite <- Hrows, <- Hcols.
  destruct (position_In _ _ Hr1) as [i1 Hi1].
  unfold registered in Hr2. rewrite <- Hrows in Hr2.
  destruct (position_In _ _ Hr2) as [i2 Hi2].
  unfold loc. simpl. rewrite Hi1, Hi2. simpl.
  eexists _, _, _, i1, i2. repeat split; assumption.
Qed.

Lemma table_independent_of_query_witness :
  well_formed objects utterances /\
  same_stage (PragmaticSpeaker blue_square 2) (PragmaticSpeaker green_square 2) /\
  registered objects utterances (PragmaticSpeaker blue_square 2) /\
  registered objects utterances (PragmaticSpeaker green_square 2) /\
  exists df probs1 probs2 i1 i2,
    run tutorial objects utterances (PragmaticSpeaker blue_square 2)
      = Ok (df, probs1) /\
    run tutorial objects utterances (PragmaticSpeaker green_square 2)
      = Ok (df, probs2) /\
    position "blue square" (index df) = Some i1 /\
    position "green square" (index df) = Some i2 /\
    values probs1 = nth i1 (data df) [] /\
    values probs2 = nth i2 (data df) [].
Proof.
  assert (Hsame : same_stage (PragmaticSpeaker blue_square 2)
                             (PragmaticSpeaker green_square 2))
    by reflexivity.
  assert (Hr1 : registered objects utterances (PragmaticSpeaker blue_square 2))
    by (unfold registered; simpl; tauto).
  assert (Hr2 : registered objects utterances (PragmaticSpeaker green_square 2))
    by (unfold registered; simpl; tauto).
  split; [exact canonical_well_formed|]. split; [exact Hsame|].
  split; [exact Hr1|]. split; [exact Hr2|].
  exact (table_independent_of_query tutorial objects utterances _ _
           canonical_well_formed Hsame Hr1 Hr2).
Defined.



(** * More about the stages *)

(** ** Transposition *)

Lemma transpose_rows {A B : Type} (f : A -> B -> value) (xs : list A)
  (ys : list B) :
  map (fun j => column j (map (fun x => map (f x) ys) xs))
      (seq 0 (List.length ys))
  = map (fun y => map (fun x => f x y) xs) ys.
Proof.
  induction ys as [|y ys IH]; [reflexivity|].
  cbn [List.length seq map]. f_equal.
  - unfold column. rewrite map_map. reflexivity.
  - rewrite <- seq_shift, map_map. rewrite <- IH.
    apply map_ext. intros j. unfold column. rewrite !map_map. reflexivity.
Qed.

Lemma T_rows {A B : Type} (f : A -> B -> value) (xs : list A) (ys : list B) :
  xs <> [] ->
  T (np_array (map (fun x => map (f x) ys) xs))
  = Arr2 (map (fun y => map (fun x => f x y) xs) ys).
Proof.
  destruct xs as [|x xs]; [congruence|]. intros _.
  cbn [map np_array T hd]. rewrite length_map. f_equal.
  exact (transpose_rows f (x :: xs) ys).
Qed.

(** ** The literal listener in any world *)

Lemma all_counts_truth (objs : list Obj.t) (utts : list string) :
  all_counts objs utts
  = map (fun u => map (fun o => truth_value o u) objs) utts.
Proof. reflexivity. Qed.

Lemma nth_position_map {B : Type} (f : string -> B) (utts : list string)
  (utt : string) (i : nat) (d : B) :
  position utt utts = Some i -> nth i (map f utts) d = f utt.
Proof.
  intros Hi. destruct (position_nth _ _ _ Hi) as [Hlt Hnth].
  rewrite (nth_indep _ d (f EmptyString)) by now rewrite length_map.
  now rewrite map_nth, Hnth.
Qed.

Lemma normalize_truth_row (objs : list Obj.t) (utt : string) :
  normalize_row (map (fun o => truth_value o utt) objs)
  = map (literal_prob objs utt) objs.
Proof. unfold normalize_row. now rewrite map_map. Qed.

Lemma literal_listener_row (objs : list Obj.t) (utts : list string)
  (utt : string) :
  In utt utts ->
  literal_listener objs utts utt =
    Ok ({| data := map normalize_row (all_counts objs utts);
           columns := map Obj.string objs;
           index := utts |},
        {| values := map (literal_prob objs utt) objs;
           labels := map Obj.string objs;
           name := utt |}).
Proof.
  intros Hin. destruct (position_In _ _ Hin) as [i Hi].
  unfold literal_listener. rewrite normalize_rows_Arr2. cbn [bind].
  unfold loc. cbn [index data columns]. rewrite Hi. cbn [bind].
  do 3 f_equal. rewrite nth_normalize, all_counts_truth.
  rewrite (nth_position_map _ _ _ _ _ Hi). apply normalize_truth_row.
Qed.

Lemma truth_total (objs : list Obj.t) (utt : string) :
  np_sum (map (fun o => truth_value o utt) objs)
  = Finite (INR (List.length (extension objs utt))).
Proof.
  assert (H : map (fun o => truth_value o utt) objs
              = map Finite (map (fun o => if meaning o utt then 1 else 0) objs)).
  { rewrite map_map. apply map_ext. intros o. unfold truth_value.
    now destruct (meaning o utt). }
  rewrite H, np_sum_finite. f_equal. unfold extension. clear H.
  induction objs as [|o objs IH]; [reflexivity|].
  cbn [map filter]. rewrite Rsum_cons, IH.
  destruct (meaning o utt); cbn [List.length]; [rewrite S_INR|]; lra.
Qed.

Lemma extension_nonempty (objs : list Obj.t) (utt : string) :
  (exists obj, In obj objs /\ meaning obj utt = true) ->
  0 < INR (List.length (extension objs utt)).
Proof.
  intros (o & Ho & Hm).
  assert (Hin : In o (extension objs utt)) by (apply filter_In; tauto).
  destruct (extension objs utt) as [|o' l]; [contradiction|].
  cbn [List.length]. rewrite S_INR. pose proof (pos_INR (List.length l)). lra.
Qed.

Lemma extension_empty (objs : list Obj.t) (utt : string) :
  (forall obj, In obj objs -> meaning obj utt = false) ->
  extension objs utt = [].
Proof.
  intros H. unfold extension. induction objs as [|o objs IH]; [reflexivity|].
  cbn [filter]. rewrite (H o) by now left. apply IH.
  intros o' Ho'. apply H. now right.
Qed.

Lemma literal_prob_true (objs : list Obj.t) (utt : string) (obj : Obj.t) :
  0 < INR (List.length (extension objs utt)) -> meaning obj utt = true ->
  literal_prob objs utt obj
  = Finite (1 / INR (List.length (extension objs utt))).
Proof.
  intros Hk Hm. unfold literal_prob. rewrite truth_total.
  unfold truth_value. rewrite Hm. apply fdiv_finite. lra.
Qed.

Lemma literal_prob_false (objs : list Obj.t) (utt : string) (obj : Obj.t) :
  0 < INR (List.length (extension objs utt)) -> meaning obj utt = false ->
  literal_prob objs utt obj = Finite 0.
Proof.
  intros Hk Hm. unfold literal_prob. rewrite truth_total.
  unfold truth_value. rewrite Hm.
  rewrite fdiv_finite by lra. f_equal. unfold Rdiv. lra.
Qed.

Lemma literal_prob_vacuous (objs : list Obj.t) (utt : string) (obj : Obj.t) :
  (forall o, In o objs -> meaning o utt = false) -> In obj objs ->
  literal_prob objs utt obj = NaN.
Proof.
  intros H Hin. unfold literal_prob.
  rewrite truth_total, (extension_empty _ _ H).
  unfold truth_value. rewrite (H obj Hin). apply fdiv_zero_zero.
Qed.

Lemma literal_data_formula (objs : list Obj.t) (utts : list string) :
  map normalize_row (all_counts objs utts)
  = map (fun u => map (literal_prob objs u) objs) utts.
Proof.
  rewrite all_counts_truth, map_map. apply map_ext. intros u.
  apply normalize_truth_row.
Qed.

(** ** The speaker in any world *)

Lemma speaker_vals_formula (nb : notebook) (objs : list Obj.t)
  (utts : list string) (alpha : R) :
  match nb with
  | tutorial => Tutorial.speaker_vals objs utts alpha
  | intro => Intro.speaker_vals objs utts alpha
  end
  = Ok (map (fun u => map (fun o => speaker_weight nb alpha
                                      (literal_prob objs u o)) objs) utts).
Proof.
  destruct nb; [unfold Tutorial.speaker_vals|unfold Intro.speaker_vals];
    apply for_each_map; intros u Hu;
    rewrite (literal_listener_row objs utts u Hu); cbn [bind values];
    now rewrite map_map.
Qed.

Lemma speaker_before_formula (nb : notebook) (objs : list Obj.t)
  (utts : list string) (obj : Obj.t) (alpha : R) :
  utts <> [] ->
  before_normalization nb objs utts (PragmaticSpeaker obj alpha)
  = Ok (Arr2 (map (speaker_weights nb objs utts alpha) objs)).
Proof.
  intros Hne. pose proof (speaker_vals_formula nb objs utts alpha) as H.
  destruct nb; cbn [before_normalization]; rewrite H; cbn [bind];
    now rewrite (T_rows _ utts objs Hne).
Qed.

Lemma normalize_speaker_weights (nb : notebook) (objs : list Obj.t)
  (utts : list string) (alpha : R) (obj : Obj.t) :
  normalize_row (speaker_weights nb objs utts alpha obj)
  = map (speaker_prob nb objs utts alpha obj) utts.
Proof. unfold normalize_row, speaker_weights at 2. now rewrite map_map. Qed.

Lemma position_registered_object (objs : list Obj.t) (obj : Obj.t) :
  NoDup (map Obj.string objs) -> In obj objs ->
  exists i, position (Obj.string obj) (map Obj.string objs) = Some i /\
            forall (B : Type) (f : Obj.t -> B) (d : B),
              nth i (map f objs) d = f obj.
Proof.
  induction objs as [|o objs IH]; [contradiction|].
  intros Hnd Hin. inversion Hnd as [|s l Hnotin Hnd']; subst.
  cbn [map position].
  destruct (String.eqb_spec (Obj.string obj) (Obj.string o)) as [Heq|Hne].
  - exists 0%nat. split; [reflexivity|]. intros B f d.
    destruct Hin as [->|Hin]; [reflexivity|].
    exfalso. apply Hnotin. rewrite <- Heq. now apply in_map.
  - destruct Hin as [->|Hin]; [congruence|].
    destruct (IH Hnd' Hin) as (i & Hi & Hnth).
    exists (S i). rewrite Hi. split; [reflexivity|]. intros B f d.
    apply Hnth.
Qed.

Lemma speaker_run_formula (nb : notebook) (objs : list Obj.t)
  (utts : list string) (obj : Obj.t) (alpha : R) :
  well_formed objs utts -> In obj objs ->
  run nb objs utts (PragmaticSpeaker obj alpha) =
    Ok ({| data := map (fun o => map (speaker_prob nb objs utts alpha o) utts)
                       objs;
           columns := utts;
           index := map Obj.string objs |},
        {| values := map (speaker_prob nb objs utts alpha obj) utts;
           labels := utts;
           name := Obj.string obj |}).
Proof.
  intros (_ & Hutts & _ & Hnd) Hin.
  rewrite (run_Arr2 _ _ _ _ _ (speaker_before_formula nb objs utts obj alpha Hutts)).
  cbv zeta. unfold loc. cbn [index data columns key row_labels column_labels].
  destruct (position_registered_object objs obj Hnd Hin) as (i & Hi & Hnth).
  rewrite Hi. cbn [bind]. rewrite map_map.
  assert (Hdata : map (fun o => normalize_row (speaker_weights nb objs utts alpha o)) objs
                  = map (fun o => map (speaker_prob nb objs utts alpha o) utts) objs).
  { apply map_ext. intros o. apply normalize_speaker_weights. }
  rewrite Hdata, Hnth. reflexivity.
Qed.

(** ** The pragmatic listener in any world *)

Lemma listener_vals_formula (nb : notebook) (objs : list Obj.t)
  (utts : list string) :
  well_formed objs utts ->
  match nb with
  | tutorial => Tutorial.listener_vals objs utts
  | intro => Intro.listener_vals objs utts
  end
  = Ok (map (fun o => map (fun u => listener_weight nb
                                      (speaker_prob nb objs utts 1 o u)) utts)
            objs).
Proof.
  intros Hwf.
  destruct nb; [unfold Tutorial.listener_vals|unfold Intro.listener_vals];
    apply for_each_map; intros o Ho.
  - pose proof (speaker_run_formula tutorial objs utts o 1 Hwf Ho) as H.
    cbn [run] in H. rewrite H. cbn [bind values]. now rewrite map_map.
  - pose proof (speaker_run_formula intro objs utts o 1 Hwf Ho) as H.
    cbn [run] in H. rewrite H. reflexivity.
Qed.

Lemma listener_before_formula (nb : notebook) (objs : list Obj.t)
  (utts : list string) (utt : string) :
  well_formed objs utts ->
  before_normalization nb objs utts (PragmaticListener utt)
  = Ok (Arr2 (map (listener_weights nb objs utts) utts)).
Proof.
  intros Hwf. pose proof (listener_vals_formula nb objs utts Hwf) as H.
  destruct Hwf as (Hobjs & _).
  destruct nb; cbn [before_normalization]; rewrite H; cbn [bind];
    now rewrite (T_rows _ objs utts Hobjs).
Qed.

Lemma normalize_listener_weights (nb : notebook) (objs : list Obj.t)
  (utts : list string) (utt : string) :
  normalize_row (listener_weights nb objs utts utt)
  = map (listener_prob nb objs utts utt) objs.
Proof. unfold normalize_row, listener_weights at 2. now rewrite map_map. Qed.

(** ** Weights as real numbers *)

Lemma literal_prob_real (objs : list Obj.t) (utt : string) (obj : Obj.t) :
  (exists o, In o objs /\ meaning o utt = true) ->
  literal_prob objs utt obj = Finite (literal_real objs utt obj).
Proof.
  intros Hex. pose proof (extension_nonempty objs utt Hex) as Hk.
  unfold literal_real. destruct (meaning obj utt) eqn:Hm.
  - now apply literal_prob_true.
  - now apply literal_prob_false.
Qed.

Lemma literal_real_bounds (objs : list Obj.t) (utt : string) (obj : Obj.t) :
  (exists o, In o objs /\ meaning o utt = true) ->
  (meaning obj utt = true -> 0 < literal_real objs utt obj) /\
  (meaning obj utt = false -> literal_real objs utt obj = 0).
Proof.
  intros Hex. pose proof (extension_nonempty objs utt Hex) as Hk.
  unfold literal_real. destruct (meaning obj utt); split; intros H;
    try discriminate; try reflexivity.
  apply Rdiv_lt_0_compat; lra.
Qed.

Lemma speaker_weight_real (nb : notebook) (objs : list Obj.t) (utt : string)
  (obj : Obj.t) (alpha : R) :
  (exists o, In o objs /\ meaning o utt = true) ->
  (nb = intro -> 0 < alpha) ->
  speaker_weight nb alpha (literal_prob objs utt obj)
  = Finite (weight alpha (utility nb objs utt obj)).
Proof.
  intros Hex Halpha. rewrite (literal_prob_real objs utt obj Hex).
  destruct (literal_real_bounds objs utt obj Hex) as [Hpos Hzero].
  pose proof speaker_epsilon_pos as He.
  destruct nb; cbn [speaker_weight utility weight fadd].
  - assert (0 <= literal_real objs utt obj).
    { destruct (meaning obj utt); [left; now apply Hpos|right].
      symmetry. now apply Hzero. }
    rewrite flog_pos by lra. reflexivity.
  - destruct (meaning obj utt).
    + rewrite flog_pos by now apply Hpos. reflexivity.
    + rewrite Hzero by reflexivity. rewrite flog_zero. cbn [fmul].
      rewrite (Rsign_pos alpha) by now apply Halpha. reflexivity.
Qed.

Lemma speaker_weights_real (nb : notebook) (objs : list Obj.t)
  (utts : list string) (obj : Obj.t) (alpha : R) :
  no_vacuous_utterance objs utts ->
  (nb = intro -> 0 < alpha) ->
  speaker_weights nb objs utts alpha obj
  = map Finite (map (weight alpha) (utilities nb objs utts obj)).
Proof.
  intros Hnv Halpha. unfold speaker_weights, utilities. rewrite !map_map.
  apply map_ext_in. intros u Hu. apply speaker_weight_real; auto.
Qed.

Lemma weight_nonnegative (alpha : R) (u : option R) : 0 <= weight alpha u.
Proof. destruct u; simpl; [left; apply exp_pos|lra]. Qed.

Lemma Rsum_weights_pos (alpha : R) (us : list (option R)) :
  Exists (fun u => u <> None) us -> 0 < Rsum (map (weight alpha) us).
Proof.
  intros H. apply Rsum_pos.
  - apply Forall_map, Forall_forall. intros u _. apply weight_nonnegative.
  - apply Exists_exists in H. destruct H as (u & Hu & Hne).
    apply Exists_exists. exists (weight alpha u). split; [now apply in_map|].
    destruct u as [l|]; [|congruence]. simpl.
    pose proof (exp_pos (alpha * l)). lra.
Qed.

Lemma member_le_Rsum (rs : list R) (r : R) :
  Forall (fun x => 0 <= x) rs -> In r rs -> r <= Rsum rs.
Proof.
  induction 1 as [|x rs Hx Hrs IH]; [contradiction|].
  rewrite Rsum_cons. pose proof (Rsum_nonnegative rs Hrs).
  intros [->|Hin]; [lra|]. specialize (IH Hin). lra.
Qed.

Lemma normalized_probability (rs : list R) :
  Forall (fun x => 0 <= x) rs -> 0 < Rsum rs ->
  Forall probability (normalized rs).
Proof.
  intros Hnn Hs. unfold normalized. apply Forall_map, Forall_forall.
  intros r Hr. simpl. rewrite Forall_forall in Hnn. split.
  - apply Rmult_le_pos; [now apply Hnn|]. left. now apply Rinv_0_lt_compat.
  - apply Rmult_le_reg_r with (Rsum rs); [assumption|].
    unfold Rdiv. rewrite Rmult_assoc, Rinv_l by lra.
    rewrite Rmult_1_r, Rmult_1_l. apply member_le_Rsum; [|assumption].
    now apply Forall_forall.
Qed.

Lemma np_sum_In_NaN (row : list value) : In NaN row -> np_sum row = NaN.
Proof.
  unfold np_sum. generalize (Finite 0). induction row as [|v row IH];
    [contradiction|].
  intros acc [->|Hin]; cbn [fold_left].
  - replace (fadd acc NaN) with NaN by now destruct acc.
    clear. induction row as [|v row IH]; [reflexivity|]. exact IH.
  - now apply IH.
Qed.

Lemma fdiv_by_NaN (x : value) : fdiv x NaN = NaN.
Proof. now destruct x. Qed.

Lemma normalize_row_In_NaN (row : list value) :
  In NaN row -> normalize_row row = map (fun _ => NaN) row.
Proof.
  intros H. unfold normalize_row. rewrite (np_sum_In_NaN row H).
  apply map_ext. intros x. apply fdiv_by_NaN.
Qed.

Lemma speaker_weight_NaN (nb : notebook) (alpha : R) :
  speaker_weight nb alpha NaN = NaN.
Proof. now destruct nb. Qed.

Lemma listener_weight_NaN (nb : notebook) : listener_weight nb NaN = NaN.
Proof. now destruct nb. Qed.

Lemma run_speaker_label (nb : notebook) (objs : list Obj.t)
  (utts : list string) (obj obj' : Obj.t) (alpha : R) :
  Obj.string obj = Obj.string obj' ->
  run nb objs utts (PragmaticSpeaker obj alpha)
  = run nb objs utts (PragmaticSpeaker obj' alpha).
Proof.
  intros H. destruct nb; cbn [run];
    [unfold Tutorial.pragmatic_speaker|unfold Intro.pragmatic_speaker];
    now rewrite H.
Qed.

Lemma registered_label (objs : list Obj.t) (utts : list string) (obj : Obj.t)
  (alpha : R) :
  registered objs utts (PragmaticSpeaker obj alpha) ->
  exists obj', In obj' objs /\ Obj.string obj = Obj.string obj'.
Proof.
  unfold registered. cbn [key row_labels]. intros H.
  apply in_map_iff in H. destruct H as (o & Ho & Hin). exists o. auto.
Qed.

(** * More properties of the notebooks *)

Lemma canonical_no_vacuous : no_vacuous_utterance objects utterances.
Proof.
  intros utt [<-|[<-|[<-|[<-|[]]]]].
  - exists blue_square. split; [now left|reflexivity].
  - exists green_square. split; [simpl; tauto|reflexivity].
  - exists blue_square. split; [now left|reflexivity].
  - exists blue_circle. split; [simpl; tauto|reflexivity].
Qed.

(** X1.  The literal listener is uniform over the objects an utterance is
    true of: asked for a registered utterance that is true of [k >= 1]
    objects, [literal_listener] returns [1/k] for each of them and zero for
    every other object. *)
Theorem literal_listener_uniform (objs : list Obj.t) (utts : list string)
  (utt : string) :
  well_formed objs utts -> In utt utts ->
  (exists obj, In obj objs /\ meaning obj utt = true) ->
  exists df,
    literal_listener objs utts utt =
      Ok (df, {| values :=
                   map (fun obj =>
                          if meaning obj utt
                          then Finite (1 / INR (List.length (extension objs utt)))
                          else Finite 0)
                       objs;
                 labels := map Obj.string objs;
                 name := utt |}).
Proof.
  intros _ Hin Hex. rewrite (literal_listener_row objs utts utt Hin).
  eexists. do 3 f_equal. apply map_ext. intros o.
  rewrite (literal_prob_real objs utt o Hex). unfold literal_real.
  now destruct (meaning o utt).
Qed.

Lemma literal_listener_uniform_witness :
  well_formed objects utterances /\ In "blue" utterances /\
  (exists obj, In obj objects /\ meaning obj "blue" = true) /\
  exists df,
    literal_listener objects utterances "blue" =
      Ok (df, {| values :=
                   map (fun obj =>
                          if meaning obj "blue"
                          then Finite (1 / INR (List.length
                                                  (extension objects "blue")))
                          else Finite 0)
                       objects;
                 labels := map Obj.string objects;
                 name := "blue" |}).
Proof.
  assert (Hin : In "blue" utterances) by (simpl; tauto).
  assert (Hex : exists obj, In obj objects /\ meaning obj "blue" = true).
  { exists blue_square. split; [now left|reflexivity]. }
  split; [exact canonical_well_formed|]. split; [exact Hin|].
  split; [exact Hex|].
  exact (literal_listener_uniform objects utterances "blue"
           canonical_well_formed Hin Hex).
Defined.

(** X2.  The table of [pragmatic_speaker] has one row per object and one
    column per utterance, and its entry for object [s] and utterance [u] is
    the weight of L0(s | u) over the sum of the weights of L0(s | u') for
    all utterances [u']: the transposition puts every weight in the row of
    the object it was computed for.  The row returned is the one of the
    registered object that carries the label of the argument. *)
Theorem speaker_table_formula (nb : notebook) (objs : list Obj.t)
  (utts : list string) (obj : Obj.t) (alpha : R) :
  well_formed objs utts ->
  registered objs utts (PragmaticSpeaker obj alpha) ->
  exists obj',
    In obj' objs /\ Obj.string obj' = Obj.string obj /\
    run nb objs utts (PragmaticSpeaker obj alpha) =
      Ok ({| data := map (fun o => map (speaker_prob nb objs utts alpha o) utts)
                         objs;
             columns := utts;
             index := map Obj.string objs |},
          {| values := map (speaker_prob nb objs utts alpha obj') utts;
             labels := utts;
             name := Obj.string obj |}).
Proof.
  intros Hwf Hreg.
  destruct (registered_label objs utts obj alpha Hreg) as (o & Ho & Hs).
  exists o. split; [assumption|]. split; [now symmetry|].
  rewrite (run_speaker_label nb objs utts obj o alpha Hs).
  rewrite (speaker_run_formula nb objs utts o alpha Hwf Ho).
  now rewrite Hs.
Qed.

Lemma speaker_table_formula_witness :
  well_formed objects utterances /\
  registered objects utterances (PragmaticSpeaker blue_circle 2) /\
  exists obj',
    In obj' objects /\ Obj.string obj' = Obj.string blue_circle /\
    run intro objects utterances (PragmaticSpeaker blue_circle 2) =
      Ok ({| data := map (fun o => map (speaker_prob intro objects utterances 2 o)
                                       utterances)
                         objects;
             columns := utterances;
             index := map Obj.string objects |},
          {| values := map (speaker_prob intro objects utterances 2 obj')
                           utterances;
             labels := utterances;
             name := Obj.string blue_circle |}).
Proof.
  assert (Hreg : registered objects utterances (PragmaticSpeaker blue_circle 2))
    by (unfold registered; simpl; tauto).
  split; [exact canonical_well_formed|]. split; [exact Hreg|].
  exact (speaker_table_formula intro objects utterances blue_circle 2
           canonical_well_formed Hreg).
Defined.

(** X3.  The table of [pragmatic_listener] has one row per utterance and
    one column per object, and its entry for utterance [u] and object [s]
    is S1(u | s) at [alpha = 1] (plus the listener's epsilon in the
    expository notebook) over the sum of the same quantity for all objects:
    Bayes' rule with a uniform prior over the objects. *)
Theorem listener_table_formula (nb : notebook) (objs : list Obj.t)
  (utts : list string) (utt : string) :
  well_formed objs utts -> In utt utts ->
  run nb objs utts (PragmaticListener utt) =
    Ok ({| data := map (fun u => map (listener_prob nb objs utts u) objs) utts;
           columns := map Obj.string objs;
           index := utts |},
        {| values := map (listener_prob nb objs utts utt) objs;
           labels := map Obj.string objs;
           name := utt |}).
Proof.
  intros Hwf Hin.
  rewrite (run_Arr2 _ _ _ _ _ (listener_before_formula nb objs utts utt Hwf)).
  cbv zeta. unfold loc. cbn [index data columns key row_labels column_labels].
  destruct (position_In _ _ Hin) as [i Hi]. rewrite Hi. cbn [bind].
  rewrite map_map.
  assert (Hdata : map (fun u => normalize_row (listener_weights nb objs utts u)) utts
                  = map (fun u => map (listener_prob nb objs utts u) objs) utts).
  { apply map_ext. intros u. apply normalize_listener_weights. }
  rewrite Hdata. rewrite (nth_position_map _ _ _ _ _ Hi). reflexivity.
Qed.

Lemma listener_table_formula_witness :
  well_formed objects utterances /\ In "square" utterances /\
  run tutorial objects utterances (PragmaticListener "square") =
    Ok ({| data := map (fun u => map (listener_prob tutorial objects utterances u)
                                     objects) utterances;
           columns := map Obj.string objects;
           index := utterances |},
        {| values := map (listener_prob tutorial objects utterances "square")
                         objects;
           labels := map Obj.string objects;
           name := "square" |}).
Proof.
  assert (Hin : In "square" utterances) by (simpl; tauto).
  split; [exact canonical_well_formed|]. split; [exact Hin|].
  exact (listener_table_formula tutorial objects utterances "square"
           canonical_well_formed Hin).
Defined.

Lemma normalize_poisoned_row (row : list value) :
  In NaN row ->
  Forall (eq NaN) (normalize_row row) /\ In NaN (normalize_row row).
Proof.
  intros H. rewrite (normalize_row_In_NaN row H). split.
  - apply Forall_map, Forall_forall. now intros.
  - apply in_map_iff. exists NaN. auto.
Qed.

Lemma poisoned_run (nb : notebook) (objs : list Obj.t) (utts : list string)
  (q : query) (m : matrix) :
  before_normalization nb objs utts q = Ok (Arr2 m) ->
  List.length m = List.length (row_labels objs utts q) ->
  Forall (In NaN) m ->
  registered objs utts q ->
  exists df probs,
    run nb objs utts q = Ok (df, probs) /\
    Forall (eq NaN) (values probs) /\ In NaN (values probs) /\
    Forall (Forall (eq NaN)) (data df).
Proof.
  intros Hbn Hlen Hm Hreg.
  destruct (run_registered _ _ _ _ _ Hbn Hreg) as (df & probs & Hrun).
  exists df, probs. split; [assumption|].
  destruct (run_inv _ _ _ _ _ _ Hrun) as (m' & i & Hbn' & Hi & Hdata & Hvals).
  rewrite Hbn in Hbn'. injection Hbn' as <-.
  destruct (position_nth _ _ _ Hi) as [Hlt _]. rewrite <- Hlen in Hlt.
  assert (Hrow : In NaN (nth i m [])).
  { rewrite Forall_forall in Hm. apply Hm. now apply nth_In. }
  rewrite Hvals, Hdata.
  destruct (normalize_poisoned_row _ Hrow) as [Hall Hin].
  repeat split; try assumption.
  apply Forall_map. apply Forall_impl with (2 := Hm).
  intros row Hr. now apply normalize_poisoned_row.
Qed.

Lemma speaker_prob_poisoned (nb : notebook) (objs : list Obj.t)
  (utts : list string) (vac : string) (alpha : R) (obj : Obj.t) :
  In vac utts -> (forall o, In o objs -> meaning o vac = false) ->
  In obj objs ->
  In NaN (speaker_weights nb objs utts alpha obj) /\
  forall utt, speaker_prob nb objs utts alpha obj utt = NaN.
Proof.
  intros Hvac Hfalse Hobj.
  assert (Hin : In NaN (speaker_weights nb objs utts alpha obj)).
  { unfold speaker_weights. apply in_map_iff. exists vac. split; [|assumption].
    rewrite (literal_prob_vacuous objs vac obj Hfalse Hobj).
    apply speaker_weight_NaN. }
  split; [assumption|]. intros utt. unfold speaker_prob.
  rewrite (np_sum_In_NaN _ Hin). apply fdiv_by_NaN.
Qed.

(** X4.  One registered utterance that is true of no object spoils both
    pragmatic stages: every registered query to [pragmatic_speaker] (for
    every [alpha]) and to [pragmatic_listener] returns a table and a row
    that hold NaN in every position.  The stabilisation constants of the
    expository notebook do not prevent it. *)
Theorem vacuous_utterance_poisons (nb : notebook) (objs : list Obj.t)
  (utts : list string) (vac : string) (q : query) :
  well_formed objs utts ->
  In vac utts -> (forall obj, In obj objs -> meaning obj vac = false) ->
  registered objs utts q ->
  (forall utt, q <> LiteralListener utt) ->
  exists df probs,
    run nb objs utts q = Ok (df, probs) /\
    Forall (eq NaN) (values probs) /\ In NaN (values probs) /\
    Forall (Forall (eq NaN)) (data df).
Proof.
  intros Hwf Hvac Hfalse Hreg Hq.
  destruct q as [utt|obj alpha|utt]; [now destruct (Hq utt)| |].
  - destruct Hwf as (_ & Hutts & _).
    apply (poisoned_run nb objs utts _ _
             (speaker_before_formula nb objs utts obj alpha Hutts)).
    + cbn [row_labels]. now rewrite !length_map.
    + apply Forall_map, Forall_forall. intros o Ho.
      now apply (speaker_prob_poisoned nb objs utts vac alpha o).
    + assumption.
  - apply (poisoned_run nb objs utts _ _
             (listener_before_formula nb objs utts utt Hwf)).
    + cbn [row_labels]. now rewrite length_map.
    + apply Forall_map, Forall_forall. intros u _.
      destruct Hwf as (Hobjs & _).
      destruct objs as [|o objs']; [congruence|].
      unfold listener_weights. apply in_map_iff. exists o.
      split; [|now left].
      destruct (speaker_prob_poisoned nb (o :: objs') utts vac 1 o Hvac Hfalse)
        as [_ ->]; [now left|].
      apply listener_weight_NaN.
    + assumption.
Qed.

Lemma vacuous_utterance_poisons_witness :
  well_formed objects utterances_red /\
  In "red" utterances_red /\
  (forall obj, In obj objects -> meaning obj "red" = false) /\
  registered objects utterances_red (PragmaticListener "blue") /\
  (forall utt, PragmaticListener "blue" <> LiteralListener utt) /\
  exists df probs,
    run tutorial objects utterances_red (PragmaticListener "blue")
      = Ok (df, probs) /\
    Forall (eq NaN) (values probs) /\ In NaN (values probs) /\
    Forall (Forall (eq NaN)) (data df).
Proof.
  assert (Hin : In "red" utterances_red) by (simpl; tauto).
  assert (Hfalse : forall obj, In obj objects -> meaning obj "red" = false).
  { intros obj [<-|[<-|[<-|[]]]]; reflexivity. }
  assert (Hreg : registered objects utterances_red (PragmaticListener "blue"))
    by (unfold registered; simpl; tauto).
  assert (Hq : forall utt, PragmaticListener "blue" <> LiteralListener utt)
    by discriminate.
  split; [exact red_well_formed|]. split; [exact Hin|].
  split; [exact Hfalse|]. split; [exact Hreg|]. split; [exact Hq|].
  exact (vacuous_utterance_poisons tutorial objects utterances_red "red" _
           red_well_formed Hin Hfalse Hreg Hq).
Defined.

(** ** The speaker's answer as real numbers *)

Lemma speaker_run_real (nb : notebook) (objs : list Obj.t)
  (utts : list string) (obj : Obj.t) (alpha : R) :
  well_formed objs utts -> no_vacuous_utterance objs utts -> In obj objs ->
  (nb = intro -> 0 < alpha) ->
  0 < Rsum (map (weight alpha) (utilities nb objs utts obj)) ->
  exists df,
    run nb objs utts (PragmaticSpeaker obj alpha) =
      Ok (df, {| values :=
                   normalized (map (weight alpha) (utilities nb objs utts obj));
                 labels := utts;
                 name := Obj.string obj |}).
Proof.
  intros Hwf Hnv Hobj Halpha Hsum.
  rewrite (speaker_run_formula nb objs utts obj alpha Hwf Hobj).
  eexists. do 3 f_equal.
  rewrite <- normalize_speaker_weights.
  rewrite (speaker_weights_real nb objs utts obj alpha Hnv Halpha).
  apply normalize_row_finite. lra.
Qed.

Lemma tutorial_utilities_some (objs : list Obj.t) (utts : list string)
  (obj : Obj.t) :
  utts <> [] ->
  Exists (fun u => u <> None) (utilities tutorial objs utts obj).
Proof.
  destruct utts as [|u utts]; [congruence|]. intros _. left. discriminate.
Qed.

Lemma intro_utilities_some (objs : list Obj.t) (utts : list string)
  (obj : Obj.t) :
  (exists utt, In utt utts /\ meaning obj utt = true) ->
  Exists (fun u => u <> None) (utilities intro objs utts obj).
Proof.
  intros (u & Hu & Hm). apply Exists_exists.
  exists (utility intro objs u obj). split.
  - exact (in_map (fun utt => utility intro objs utt obj) utts u Hu).
  - cbn [utility]. rewrite Hm. discriminate.
Qed.

Lemma Rsum_constant {A : Type} (c : R) (l : list A) :
  Rsum (map (fun _ => c) l) = INR (List.length l) * c.
Proof.
  induction l as [|a l IH]; [unfold Rsum; simpl; lra|].
  cbn [map List.length]. rewrite Rsum_cons, IH, S_INR. lra.
Qed.

Lemma normalized_constant {A : Type} (c : R) (l : list A) :
  0 < c -> l <> [] ->
  normalized (map (fun _ => c) l)
  = map (fun _ => Finite (1 / INR (List.length l))) l.
Proof.
  intros Hc Hne. unfold normalized. rewrite map_map, Rsum_constant.
  apply map_ext. intros _. f_equal.
  assert (0 < INR (List.length l)).
  { destruct l; [congruence|]. cbn [List.length]. rewrite S_INR.
    pose proof (pos_INR (List.length l)). lra. }
  field. lra.
Qed.

Lemma unit_interval_positive (rs : list R) (r : R) :
  Forall (fun x => 0 <= x) rs -> In r rs -> 0 < r ->
  0 < r / Rsum rs <= 1.
Proof.
  intros Hnn Hin Hr.
  assert (Hs : 0 < Rsum rs).
  { pose proof (member_le_Rsum rs r Hnn Hin). lra. }
  split; [now apply Rdiv_lt_0_compat|].
  pose proof (normalized_probability rs Hnn Hs) as Hp.
  unfold normalized in Hp. rewrite Forall_map, Forall_forall in Hp.
  exact (proj2 (Hp r Hin)).
Qed.

Lemma Forall2_map_in {A B : Type} (P : A -> B -> Prop) (f : A -> B)
  (l : list A) :
  (forall a, In a l -> P a (f a)) -> Forall2 P l (map f l).
Proof.
  induction l as [|a l IH]; intros H; cbn [map]; constructor.
  - apply H. now left.
  - apply IH. intros a' Ha'. apply H. now right.
Qed.

(** X5.  Where every utterance is true of some object, the speaker of the
    expository notebook never returns a zero: for every registered object
    and every moderate [alpha], negative ones included, it returns one
    number per utterance, each of them strictly positive and at most
    one. *)
Theorem tutorial_speaker_never_zero (objs : list Obj.t) (utts : list string)
  (obj : Obj.t) (alpha : R) :
  well_formed objs utts -> no_vacuous_utterance objs utts -> In obj objs ->
  moderate alpha ->
  exists df probs,
    Tutorial.pragmatic_speaker objs utts obj alpha = Ok (df, probs) /\
    List.length (values probs) = List.length utts /\
    Forall (fun v => positive v /\ probability v) (values probs).
Proof.
  intros Hwf Hnv Hobj _.
  assert (Hutts : utts <> []) by apply Hwf.
  assert (Hsum : 0 < Rsum (map (weight alpha) (utilities tutorial objs utts obj))).
  { apply Rsum_weights_pos. now apply tutorial_utilities_some. }
  destruct (speaker_run_real tutorial objs utts obj alpha Hwf Hnv Hobj)
    as [df Hrun]; [discriminate|assumption|].
  cbn [run] in Hrun. rewrite Hrun. eexists _, _. split; [reflexivity|].
  cbn [values]. unfold normalized, utilities. rewrite !length_map.
  split; [reflexivity|].
  rewrite !map_map. apply Forall_map, Forall_forall. intros u Hu.
  cbn [positive probability].
  assert (H : 0 < weight alpha (utility tutorial objs u obj)
                  / Rsum (map (fun x => weight alpha (utility tutorial objs x obj)) utts)
              <= 1).
  { apply unit_interval_positive.
    - apply Forall_map, Forall_forall. intros x _. apply weight_nonnegative.
    - apply in_map_iff. exists u. auto.
    - apply exp_pos. }
  lra.
Qed.

Lemma tutorial_speaker_never_zero_witness :
  well_formed objects utterances /\ no_vacuous_utterance objects utterances /\
  In green_square objects /\ moderate (-3) /\
  exists df probs,
    Tutorial.pragmatic_speaker objects utterances green_square (-3)
      = Ok (df, probs) /\
    List.length (values probs) = List.length utterances /\
    Forall (fun v => positive v /\ probability v) (values probs).
Proof.
  assert (Hin : In green_square objects) by (simpl; tauto).
  assert (Hmod : moderate (-3)) by (apply Rabs_le; lra).
  split; [exact canonical_well_formed|]. split; [exact canonical_no_vacuous|].
  split; [exact Hin|]. split; [exact Hmod|].
  exact (tutorial_speaker_never_zero objects utterances green_square (-3)
           canonical_well_formed canonical_no_vacuous Hin Hmod).
Defined.

(** X6.  Where every utterance is true of some object, the speaker of
    [intro-to-rsa.ipynb], asked with a positive, moderate [alpha] for a
    registered object that some utterance is true of, returns one number per
    utterance, each between zero and one, and exactly zero for precisely
    the utterances that are false of the object. *)
Theorem intro_speaker_support (objs : list Obj.t) (utts : list string)
  (obj : Obj.t) (alpha : R) :
  well_formed objs utts -> no_vacuous_utterance objs utts -> In obj objs ->
  (exists utt, In utt utts /\ meaning obj utt = true) ->
  0 < alpha -> moderate alpha ->
  exists df probs,
    Intro.pragmatic_speaker objs utts obj alpha = Ok (df, probs) /\
    Forall2 (fun utt v =>
               probability v /\ (v = Finite 0 <-> meaning obj utt = false))
            utts (values probs).
Proof.
  intros Hwf Hnv Hobj Hdesc Halpha _.
  assert (Hsum : 0 < Rsum (map (weight alpha) (utilities intro objs utts obj))).
  { apply Rsum_weights_pos. now apply intro_utilities_some. }
  destruct (speaker_run_real intro objs utts obj alpha Hwf Hnv Hobj)
    as [df Hrun]; [intros _; assumption|assumption|].
  cbn [run] in Hrun. rewrite Hrun. eexists _, _. split; [reflexivity|].
  cbn [values]. unfold normalized, utilities in *. rewrite !map_map in *.
  set (S := Rsum (map (fun x => weight alpha (utility intro objs x obj)) utts))
    in *.
  assert (Hall : forall u, In u utts ->
            probability (Finite (weight alpha (utility intro objs u obj) / S)) /\
            (Finite (weight alpha (utility intro objs u obj) / S) = Finite 0
             <-> meaning obj u = false)).
  { intros u Hu. split.
    - assert (Hp : Forall probability
                (normalized (map (fun x => weight alpha (utility intro objs x obj)) utts))).
      { apply normalized_probability; [|exact Hsum].
        apply Forall_map, Forall_forall. intros x _. apply weight_nonnegative. }
      unfold normalized in Hp. rewrite map_map in Hp.
      rewrite Forall_map, Forall_forall in Hp. exact (Hp u Hu).
    - cbn [utility]. destruct (meaning obj u); cbn [weight].
      + split; [|discriminate]. intros [= H]. exfalso.
        pose proof (exp_pos (alpha * ln (literal_real objs u obj))) as He.
        assert (0 < exp (alpha * ln (literal_real objs u obj)) / S)
          by now apply Rdiv_lt_0_compat.
        lra.
      + split; [reflexivity|]. intros _. f_equal. unfold Rdiv. lra. }
  exact (Forall2_map_in _ _ utts Hall).
Qed.

Lemma intro_speaker_support_witness :
  well_formed objects utterances /\ no_vacuous_utterance objects utterances /\
  In blue_circle objects /\
  (exists utt, In utt utterances /\ meaning blue_circle utt = true) /\
  0 < 2 /\ moderate 2 /\
  exists df probs,
    Intro.pragmatic_speaker objects utterances blue_circle 2
      = Ok (df, probs) /\
    Forall2 (fun utt v =>
               probability v /\
               (v = Finite 0 <-> meaning blue_circle utt = false))
            utterances (values probs).
Proof.
  assert (Hin : In blue_circle objects) by (simpl; tauto).
  assert (Hdesc : exists utt, In utt utterances /\
                              meaning blue_circle utt = true).
  { exists "blue". split; [now left|reflexivity]. }
  assert (H2 : 0 < 2) by lra.
  assert (Hmod : moderate 2) by (apply Rabs_le; lra).
  split; [exact canonical_well_formed|]. split; [exact canonical_no_vacuous|].
  split; [exact Hin|]. split; [exact Hdesc|]. split; [exact H2|].
  split; [exact Hmod|].
  exact (intro_speaker_support objects utterances blue_circle 2
           canonical_well_formed canonical_no_vacuous Hin Hdesc H2 Hmod).
Defined.

Lemma triangle_well_formed : well_formed objects_triangle utterances.
Proof.
  repeat split; try discriminate.
  - repeat constructor; simpl; intuition discriminate.
  - repeat constructor; simpl; intuition discriminate.
Qed.

Lemma triangle_no_vacuous : no_vacuous_utterance objects_triangle utterances.
Proof.
  intros utt Hutt. destruct (canonical_no_vacuous utt Hutt) as (o & Ho & Hm).
  exists o. split; [|assumption]. simpl in Ho |- *. tauto.
Qed.

Lemma triangle_undescribed :
  forall utt, In utt utterances -> meaning red_triangle utt = false.
Proof. intros utt [<-|[<-|[<-|[<-|[]]]]]; reflexivity. Qed.

Lemma np_sum_zeros {A : Type} (l : list A) :
  np_sum (map (fun _ => Finite 0) l) = Finite 0.
Proof.
  rewrite <- (map_map (fun _ => 0) Finite), np_sum_finite.
  now rewrite Rsum_zeros.
Qed.

Lemma fadd_PosInf (a v : value) :
  a = PosInf \/ is_finite a -> v = PosInf \/ is_finite v ->
  (fadd a v = PosInf \/ is_finite (fadd a v)) /\
  (a = PosInf \/ v = PosInf -> fadd a v = PosInf).
Proof.
  intros Ha Hv.
  destruct a, v; cbn [fadd is_finite] in *; split;
    try tauto; intuition discriminate.
Qed.

Lemma np_sum_PosInf (row : list value) :
  In PosInf row -> Forall (fun v => v = PosInf \/ is_finite v) row ->
  np_sum row = PosInf.
Proof.
  unfold np_sum. intros Hin Hall.
  assert (Hgen : forall acc, acc = PosInf \/ is_finite acc ->
            acc = PosInf \/ In PosInf row ->
            fold_left fadd row acc = PosInf).
  { clear Hin. induction Hall as [|v row Hv _ IH]; intros acc Hacc Hor.
    - destruct Hor as [->|[]]. reflexivity.
    - cbn [fold_left]. destruct (fadd_PosInf acc v Hacc Hv) as [Hc Hp].
      apply IH; [assumption|].
      destruct Hor as [Ha|[Hv'|Hin]]; [left|left|now right]; apply Hp; tauto. }
  apply Hgen; [right; exact I|now right].
Qed.

Lemma normalize_constant_degenerate {A : Type} (w : value) (l : list A) :
  l <> [] -> w = Finite 0 \/ w = NaN \/ w = PosInf ->
  normalize_row (map (fun _ => w) l) = map (fun _ => NaN) l.
Proof.
  intros Hne Hw. unfold normalize_row. rewrite map_map.
  assert (Hq : fdiv w (np_sum (map (fun _ : A => w) l)) = NaN).
  { destruct Hw as [->|[->| ->]].
    - rewrite np_sum_zeros. apply fdiv_zero_zero.
    - reflexivity.
    - rewrite np_sum_PosInf; [reflexivity| |].
      + destruct l; [congruence|]. now left.
      + apply Forall_map, Forall_forall. intros; now left. }
  apply map_ext. intros _. exact Hq.
Qed.

Lemma intro_weight_of_zero (alpha : R) :
  let w := speaker_weight intro alpha (Finite 0) in
  w = Finite 0 \/ w = NaN \/ w = PosInf.
Proof.
  cbn [speaker_weight]. rewrite flog_zero. cbn [fmul].
  destruct (Rsign alpha); cbn [fexp]; tauto.
Qed.

(** X7.  A registered object that no utterance is true of (every utterance
    being true of some other object): the speaker of the expository
    notebook answers with the uniform distribution over the utterances,
    for every moderate [alpha]; the speaker of [intro-to-rsa.ipynb] answers
    with NaN in every position, for every [alpha]. *)
Theorem undescribed_object (objs : list Obj.t) (utts : list string)
  (obj : Obj.t) :
  well_formed objs utts -> no_vacuous_utterance objs utts -> In obj objs ->
  (forall utt, In utt utts -> meaning obj utt = false) ->
  (forall alpha, moderate alpha -> exists df,
     Tutorial.pragmatic_speaker objs utts obj alpha =
       Ok (df, {| values := map (fun _ => Finite (1 / INR (List.length utts)))
                                utts;
                  labels := utts;
                  name := Obj.string obj |})) /\
  (forall alpha, exists df,
     Intro.pragmatic_speaker objs utts obj alpha =
       Ok (df, {| values := map (fun _ => NaN) utts;
                  labels := utts;
                  name := Obj.string obj |})).
Proof.
  intros Hwf Hnv Hobj Hfalse.
  assert (Hutts : utts <> []) by apply Hwf.
  split; [intros alpha _|intros alpha].
  - set (c := exp (alpha * ln (0 + Tutorial.speaker_epsilon))).
    assert (Hws : map (weight alpha) (utilities tutorial objs utts obj)
                  = map (fun _ => c) utts).
    { unfold utilities. rewrite map_map. apply map_ext_in. intros u Hu.
      cbn [utility weight]. unfold literal_real. now rewrite (Hfalse u Hu). }
    destruct (speaker_run_real tutorial objs utts obj alpha Hwf Hnv Hobj)
      as [df Hrun]; [discriminate| |].
    { rewrite Hws, Rsum_constant.
      apply Rmult_lt_0_compat; [|apply exp_pos].
      destruct utts; [congruence|]. cbn [List.length]. rewrite S_INR.
      pose proof (pos_INR (List.length utts)). lra. }
    cbn [run] in Hrun. rewrite Hrun, Hws. exists df. do 3 f_equal.
    apply normalized_constant; [apply exp_pos|assumption].
  - pose proof (speaker_run_formula intro objs utts obj alpha Hwf Hobj) as Hrun.
    cbn [run] in Hrun. rewrite Hrun. eexists. do 3 f_equal.
    rewrite <- normalize_speaker_weights.
    assert (Hws : speaker_weights intro objs utts alpha obj
                  = map (fun _ => speaker_weight intro alpha (Finite 0)) utts).
    { unfold speaker_weights. apply map_ext_in. intros u Hu.
      rewrite (literal_prob_real objs u obj (Hnv u Hu)).
      unfold literal_real. now rewrite (Hfalse u Hu). }
    rewrite Hws. apply normalize_constant_degenerate; [assumption|].
    apply intro_weight_of_zero.
Qed.

Lemma undescribed_object_witness :
  well_formed objects_triangle utterances /\
  no_vacuous_utterance objects_triangle utterances /\
  In red_triangle objects_triangle /\
  (forall utt, In utt utterances -> meaning red_triangle utt = false) /\
  (forall alpha, moderate alpha -> exists df,
     Tutorial.pragmatic_speaker objects_triangle utterances red_triangle alpha =
       Ok (df, {| values := map (fun _ => Finite (1 / INR (List.length utterances)))
                                utterances;
                  labels := utterances;
                  name := Obj.string red_triangle |})) /\
  (forall alpha, exists df,
     Intro.pragmatic_speaker objects_triangle utterances red_triangle alpha =
       Ok (df, {| values := map (fun _ => NaN) utterances;
                  labels := utterances;
                  name := Obj.string red_triangle |})).
Proof.
  assert (Hin : In red_triangle objects_triangle) by (simpl; tauto).
  split; [exact triangle_well_formed|]. split; [exact triangle_no_vacuous|].
  split; [exact Hin|]. split; [exact triangle_undescribed|].
  exact (undescribed_object objects_triangle utterances red_triangle
           triangle_well_formed triangle_no_vacuous Hin triangle_undescribed).
Defined.

(** X8.  With [alpha = 0] the speaker of the expository notebook ignores
    the literal listener: where every utterance is true of some object, it
    answers every registered object with the uniform distribution over the
    utterances. *)
Theorem tutorial_alpha_zero_uniform (objs : list Obj.t) (utts : list string)
  (obj : Obj.t) :
  well_formed objs utts -> no_vacuous_utterance objs utts -> In obj objs ->
  exists df,
    Tutorial.pragmatic_speaker objs utts obj 0 =
      Ok (df, {| values := map (fun _ => Finite (1 / INR (List.length utts)))
                               utts;
                 labels := utts;
                 name := Obj.string obj |}).
Proof.
  intros Hwf Hnv Hobj.
  assert (Hutts : utts <> []) by apply Hwf.
  assert (Hws : map (weight 0) (utilities tutorial objs utts obj)
                = map (fun _ => 1) utts).
  { unfold utilities. rewrite map_map. apply map_ext. intros u.
    cbn [utility weight]. now rewrite Rmult_0_l, exp_0. }
  destruct (speaker_run_real tutorial objs utts obj 0 Hwf Hnv Hobj)
    as [df Hrun]; [discriminate| |].
  { rewrite Hws, Rsum_constant.
    destruct utts; [congruence|]. cbn [List.length]. rewrite S_INR.
    pose proof (pos_INR (List.length utts)). lra. }
  cbn [run] in Hrun. rewrite Hrun, Hws. exists df. do 3 f_equal.
  apply normalized_constant; [lra|assumption].
Qed.

Lemma tutorial_alpha_zero_uniform_witness :
  well_formed objects utterances /\ no_vacuous_utterance objects utterances /\
  In blue_circle objects /\
  exists df,
    Tutorial.pragmatic_speaker objects utterances blue_circle 0 =
      Ok (df, {| values := map (fun _ => Finite (1 / INR (List.length utterances)))
                               utterances;
                 labels := utterances;
                 name := Obj.string blue_circle |}).
Proof.
  assert (Hin : In blue_circle objects) by (simpl; tauto).
  split; [exact canonical_well_formed|]. split; [exact canonical_no_vacuous|].
  split; [exact Hin|].
  exact (tutorial_alpha_zero_uniform objects utterances blue_circle
           canonical_well_formed canonical_no_vacuous Hin).
Defined.

Lemma intro_speaker_run (objs : list Obj.t) (utts : list string)
  (obj : Obj.t) (alpha : R) :
  well_formed objs utts -> In obj objs ->
  exists df,
    Intro.pragmatic_speaker objs utts obj alpha =
      Ok (df, {| values := normalize_row (speaker_weights intro objs utts alpha obj);
                 labels := utts;
                 name := Obj.string obj |}).
Proof.
  intros Hwf Hobj.
  pose proof (speaker_run_formula intro objs utts obj alpha Hwf Hobj) as Hrun.
  cbn [run] in Hrun. rewrite Hrun. eexists. do 3 f_equal.
  symmetry. apply normalize_speaker_weights.
Qed.

(** X9.  With [alpha = 0] the speaker of [intro-to-rsa.ipynb] multiplies
    zero by the logarithm of zero.  Where every utterance is true of some
    object, it answers a registered object with NaN in every position as
    soon as one utterance is false of the object, and with the uniform
    distribution only when every utterance is true of it. *)
Theorem intro_alpha_zero (objs : list Obj.t) (utts : list string)
  (obj : Obj.t) :
  well_formed objs utts -> no_vacuous_utterance objs utts -> In obj objs ->
  ((exists utt, In utt utts /\ meaning obj utt = false) ->
   exists df,
     Intro.pragmatic_speaker objs utts obj 0 =
       Ok (df, {| values := map (fun _ => NaN) utts;
                  labels := utts;
                  name := Obj.string obj |})) /\
  ((forall utt, In utt utts -> meaning obj utt = true) ->
   exists df,
     Intro.pragmatic_speaker objs utts obj 0 =
       Ok (df, {| values := map (fun _ => Finite (1 / INR (List.length utts)))
                                utts;
                  labels := utts;
                  name := Obj.string obj |})).
Proof.
  intros Hwf Hnv Hobj.
  assert (Hutts : utts <> []) by apply Hwf.
  destruct (intro_speaker_run objs utts obj 0 Hwf Hobj) as [df Hrun].
  rewrite Hrun. split.
  - intros (u & Hu & Hm). exists df. do 3 f_equal.
    assert (Hin : In NaN (speaker_weights intro objs utts 0 obj)).
    { unfold speaker_weights. apply in_map_iff. exists u. split; [|assumption].
      rewrite (literal_prob_false objs u obj
                 (extension_nonempty objs u (Hnv u Hu)) Hm).
      cbn [speaker_weight]. rewrite flog_zero. cbn [fmul].
      now rewrite (Rsign_zero 0 eq_refl). }
    rewrite (normalize_row_In_NaN _ Hin). unfold speaker_weights.
    now rewrite map_map.
  - intros Htrue. exists df. do 3 f_equal.
    assert (Hws : speaker_weights intro objs utts 0 obj
                  = map Finite (map (fun _ => 1) utts)).
    { unfold speaker_weights. rewrite map_map. apply map_ext_in. intros u Hu.
      pose proof (extension_nonempty objs u (Hnv u Hu)) as Hk.
      rewrite (literal_prob_true objs u obj Hk (Htrue u Hu)).
      cbn [speaker_weight].
      rewrite flog_pos by (apply Rdiv_lt_0_compat; lra).
      cbn [fmul fexp]. now rewrite Rmult_0_l, exp_0. }
    rewrite Hws, normalize_row_finite.
    + apply normalized_constant; [lra|assumption].
    + rewrite Rsum_constant.
      destruct utts; [congruence|]. cbn [List.length]. rewrite S_INR.
      pose proof (pos_INR (List.length utts)). lra.
Qed.

Lemma intro_alpha_zero_witness :
  well_formed objects utterances /\ no_vacuous_utterance objects utterances /\
  In green_square objects /\
  ((exists utt, In utt utterances /\ meaning green_square utt = false) ->
   exists df,
     Intro.pragmatic_speaker objects utterances green_square 0 =
       Ok (df, {| values := map (fun _ => NaN) utterances;
                  labels := utterances;
                  name := Obj.string green_square |})) /\
  ((forall utt, In utt utterances -> meaning green_square utt = true) ->
   exists df,
     Intro.pragmatic_speaker objects utterances green_square 0 =
       Ok (df, {| values := map (fun _ => Finite (1 / INR (List.length utterances)))
                                utterances;
                  labels := utterances;
                  name := Obj.string green_square |})).
Proof.
  assert (Hin : In green_square objects) by (simpl; tauto).
  split; [exact canonical_well_formed|]. split; [exact canonical_no_vacuous|].
  split; [exact Hin|].
  exact (intro_alpha_zero objects utterances green_square
           canonical_well_formed canonical_no_vacuous Hin).
Defined.

(** X10.  With a negative, moderate [alpha] the speaker of
    [intro-to-rsa.ipynb] gives
    an infinite weight to every utterance that is false of the object.
    Where every utterance is true of some object, it answers a registered
    object that some utterance is false of with NaN for the utterances that
    are false of it and zero for the utterances that are true of it. *)
Theorem intro_negative_alpha (objs : list Obj.t) (utts : list string)
  (obj : Obj.t) (alpha : R) :
  well_formed objs utts -> no_vacuous_utterance objs utts -> In obj objs ->
  alpha < 0 -> moderate alpha ->
  (exists utt, In utt utts /\ meaning obj utt = false) ->
  exists df,
    Intro.pragmatic_speaker objs utts obj alpha =
      Ok (df, {| values := map (fun utt => if meaning obj utt
                                           then Finite 0 else NaN) utts;
                 labels := utts;
                 name := Obj.string obj |}).
Proof.
  intros Hwf Hnv Hobj Halpha _ (u0 & Hu0 & Hm0).
  destruct (intro_speaker_run objs utts obj alpha Hwf Hobj) as [df Hrun].
  rewrite Hrun. exists df. do 3 f_equal.
  assert (Hws : speaker_weights intro objs utts alpha obj
                = map (fun u => if meaning obj u
                                then Finite (exp (alpha * ln (literal_real objs u obj)))
                                else PosInf) utts).
  { unfold speaker_weights. apply map_ext_in. intros u Hu.
    rewrite (literal_prob_real objs u obj (Hnv u Hu)).
    destruct (literal_real_bounds objs u obj (Hnv u Hu)) as [Hpos Hzero].
    cbn [speaker_weight]. destruct (meaning obj u).
    - rewrite flog_pos by now apply Hpos. reflexivity.
    - rewrite Hzero by reflexivity. rewrite flog_zero. cbn [fmul].
      now rewrite (Rsign_neg alpha Halpha). }
  rewrite Hws. unfold normalize_row. rewrite np_sum_PosInf.
  - rewrite map_map. apply map_ext. intros u. now destruct (meaning obj u).
  - apply in_map_iff. exists u0. rewrite Hm0. auto.
  - apply Forall_map, Forall_forall. intros u _.
    destruct (meaning obj u); [right; exact I|now left].
Qed.

Lemma intro_negative_alpha_witness :
  well_formed objects utterances /\ no_vacuous_utterance objects utterances /\
  In blue_square objects /\ -1 < 0 /\ moderate (-1) /\
  (exists utt, In utt utterances /\ meaning blue_square utt = false) /\
  exists df,
    Intro.pragmatic_speaker objects utterances blue_square (-1) =
      Ok (df, {| values := map (fun utt => if meaning blue_square utt
                                           then Finite 0 else NaN) utterances;
                 labels := utterances;
                 name := Obj.string blue_square |}).
Proof.
  assert (Hin : In blue_square objects) by (simpl; tauto).
  assert (Hneg : -1 < 0) by lra.
  assert (Hex : exists utt, In utt utterances /\
                            meaning blue_square utt = false).
  { exists "green". split; [simpl; tauto|reflexivity]. }
  split; [exact canonical_well_formed|]. split; [exact canonical_no_vacuous|].
  assert (Hmod : moderate (-1)) by (apply Rabs_le; lra).
  split; [exact Hin|]. split; [exact Hneg|]. split; [exact Hmod|].
  split; [exact Hex|].
  exact (intro_negative_alpha objects utterances blue_square (-1)
           canonical_well_formed canonical_no_vacuous Hin Hneg Hmod Hex).
Defined.

(** X11.  Whenever the row that a stage normalises holds finite numbers
    that are not all zero, the distribution it returns holds one number per
    entry of that row, each between zero and one.  All three stages, both
    notebooks, every well-formed world, every [alpha]. *)
Theorem values_are_probabilities (nb : notebook) (objs : list Obj.t)
  (utts : list string) (q : query) (row : list value) :
  well_formed objs utts ->
  row_before_normalization nb objs utts q = Ok row ->
  Forall is_finite row -> Exists not_zero row ->
  exists df probs,
    run nb objs utts q = Ok (df, probs) /\
    List.length (values probs) = List.length row /\
    Forall probability (values probs).
Proof.
  intros _ Hrow Hfin Hnz. unfold row_before_normalization in Hrow.
  destruct (before_normalization nb objs utts q) as [[v|m]|e] eqn:Hbn;
    cbn [bind] in Hrow; try discriminate.
  destruct (position (key q) (row_labels objs utts q)) as [i|] eqn:Hi;
    [|discriminate].
  injection Hrow as <-.
  rewrite (run_Arr2 _ _ _ _ _ Hbn). cbv zeta. unfold loc. cbn [index data].
  rewrite Hi. cbn [bind]. eexists _, _. split; [reflexivity|].
  cbn [values]. rewrite nth_normalize.
  assert (Hnn : Forall nonnegative (nth i m [])).
  { apply nth_nonnegative. now apply (before_nonnegative nb objs utts q). }
  destruct (all_finite_inv _ Hfin) as [rs Hrs]. rewrite Hrs in *.
  assert (Hpos : 0 < Rsum rs).
  { apply Rsum_pos; [now apply nonnegative_finite_inv
                    |now apply not_zero_finite_inv]. }
  rewrite normalize_row_finite by lra. split.
  - now rewrite !length_map.
  - apply normalized_probability; [|assumption].
    now apply nonnegative_finite_inv.
Qed.

Lemma values_are_probabilities_witness :
  well_formed objects utterances /\
  row_before_normalization intro objects utterances
    (PragmaticListener "green")
  = Ok (map Finite (nth 1 intro_listener_weights [])) /\
  Forall is_finite (map Finite (nth 1 intro_listener_weights [])) /\
  Exists not_zero (map Finite (nth 1 intro_listener_weights [])) /\
  exists df probs,
    run intro objects utterances (PragmaticListener "green")
      = Ok (df, probs) /\
    List.length (values probs)
      = List.length (map Finite (nth 1 intro_listener_weights [])) /\
    Forall probability (values probs).
Proof.
  assert (Hrow : row_before_normalization intro objects utterances
                   (PragmaticListener "green")
                 = Ok (map Finite (nth 1 intro_listener_weights []))).
  { unfold row_before_normalization.
    rewrite (intro_listener_before "green"). reflexivity. }
  assert (Hfin : Forall is_finite (map Finite (nth 1 intro_listener_weights []))).
  { repeat constructor. }
  assert (Hnz : Exists not_zero (map Finite (nth 1 intro_listener_weights []))).
  { right. right. left. intros [= H]. lra. }
  split; [exact canonical_well_formed|]. split; [exact Hrow|].
  split; [exact Hfin|]. split; [exact Hnz|].
  exact (values_are_probabilities intro objects utterances
           (PragmaticListener "green") _ canonical_well_formed Hrow Hfin Hnz).
Defined.

Lemma before_shape (nb : notebook) (objs : list Obj.t) (utts : list string)
  (q : query) :
  well_formed objs utts ->
  exists m,
    before_normalization nb objs utts q = Ok (Arr2 m) /\
    List.length m = List.length (row_labels objs utts q) /\
    Forall (fun row => List.length row
                       = List.length (column_labels objs utts q)) m.
Proof.
  intros Hwf. destruct q as [utt|obj alpha|utt].
  - exists (all_counts objs utts). split; [now destruct nb|].
    unfold all_counts. cbn [row_labels column_labels].
    rewrite !length_map. split; [reflexivity|].
    apply Forall_map, Forall_forall. intros u _. now rewrite !length_map.
  - exists (map (speaker_weights nb objs utts alpha) objs).
    split; [apply speaker_before_formula, Hwf|].
    cbn [row_labels column_labels]. rewrite !length_map.
    split; [reflexivity|]. apply Forall_map, Forall_forall. intros o _.
    unfold speaker_weights. now rewrite length_map.
  - exists (map (listener_weights nb objs utts) utts).
    split; [now apply listener_before_formula|].
    cbn [row_labels column_labels]. rewrite !length_map.
    split; [reflexivity|]. apply Forall_map, Forall_forall. intros u _.
    unfold listener_weights. now rewrite length_map.
Qed.

Lemma normalize_row_length (row : list value) :
  List.length (normalize_row row) = List.length row.
Proof. unfold normalize_row. apply length_map. Qed.

(** X12.  What a stage returns always has the shape of its labels: the
    table has one row per row label and every row has one entry per column
    label (so the frame can be built), and the returned series is named
    after the query, is labelled by the columns of the table and has one
    value per label. *)
Theorem stage_shapes (nb : notebook) (objs : list Obj.t) (utts : list string)
  (q : query) (df : DataFrame) (probs : Series) :
  well_formed objs utts ->
  run nb objs utts q = Ok (df, probs) ->
  index df = row_labels objs utts q /\
  columns df = column_labels objs utts q /\
  List.length (data df) = List.length (index df) /\
  Forall (fun row => List.length row = List.length (columns df)) (data df) /\
  name probs = key q /\
  labels probs = columns df /\
  List.length (values probs) = List.length (labels probs).
Proof.
  intros Hwf Hrun.
  destruct (before_shape nb objs utts q Hwf) as (m & Hbn & Hlen & Hrows).
  rewrite (run_Arr2 _ _ _ _ _ Hbn) in Hrun. cbv zeta in Hrun.
  unfold loc in Hrun. cbn [index data columns] in Hrun.
  destruct (position (key q) (row_labels objs utts q)) as [i|] eqn:Hi;
    [|discriminate].
  cbn [bind] in Hrun. injection Hrun as <- <-.
  cbn [index columns data name labels values].
  assert (Hdata : Forall (fun row => List.length row
                    = List.length (column_labels objs utts q))
                    (map normalize_row m)).
  { apply Forall_map. apply Forall_impl with (2 := Hrows).
    intros row Hr. now rewrite normalize_row_length. }
  repeat split; try reflexivity.
  - now rewrite length_map.
  - exact Hdata.
  - destruct (position_nth _ _ _ Hi) as [Hlt _].
    rewrite Forall_forall in Hdata. apply Hdata, nth_In.
    now rewrite length_map, Hlen.
Qed.

Lemma stage_shapes_witness :
  well_formed objects utterances /\
  run tutorial objects utterances (LiteralListener "square")
    = Ok (literal_frame, square_row) /\
  index literal_frame
    = row_labels objects utterances (LiteralListener "square") /\
  columns literal_frame
    = column_labels objects utterances (LiteralListener "square") /\
  List.length (data literal_frame) = List.length (index literal_frame) /\
  Forall (fun row => List.length row = List.length (columns literal_frame))
         (data literal_frame) /\
  name square_row = key (LiteralListener "square") /\
  labels square_row = columns literal_frame /\
  List.length (values square_row) = List.length (labels square_row).
Proof.
  assert (Hrun : run tutorial objects utterances (LiteralListener "square")
                 = Ok (literal_frame, square_row)).
  { exact (literal_listener_at "square" 2 eq_refl). }
  split; [exact canonical_well_formed|]. split; [exact Hrun|].
  exact (stage_shapes tutorial objects utterances (LiteralListener "square")
           literal_frame square_row canonical_well_formed Hrun).
Defined.

(** X13.  Empty worlds.  Without utterances [pragmatic_speaker] raises
    [AxisError] (the sum along axis 1 of an array that has one axis),
    whatever the object and [alpha]; without objects or without utterances
    [pragmatic_listener] raises [AxisError]; without utterances
    [literal_listener] raises [KeyError]; and without objects
    [literal_listener] answers a registered utterance with an empty row and
    divides nothing. *)
Theorem empty_worlds (nb : notebook) :
  (forall objs obj alpha,
     run nb objs [] (PragmaticSpeaker obj alpha) = Raise AxisError) /\
  (forall objs utts utt,
     objs = [] \/ utts = [] ->
     run nb objs utts (PragmaticListener utt) = Raise AxisError) /\
  (forall objs utt,
     literal_listener objs [] utt = Raise (KeyError utt)) /\
  (forall utts utt,
     NoDup utts -> In utt utts ->
     exists df,
       literal_listener [] utts utt =
         Ok (df, {| values := []; labels := []; name := utt |})).
Proof.
  split; [|split; [|split]].
  - intros objs obj alpha. now destruct nb.
  - intros objs utts utt [-> | ->].
    + now destruct nb.
    + destruct objs as [|o objs]; now destruct nb.
  - intros objs utt. reflexivity.
  - intros utts utt _ Hin. rewrite (literal_listener_row [] utts utt Hin).
    eexists. reflexivity.
Qed.



(** ** The pragmatic listener over real numbers *)

Lemma speaker_prob_real (nb : notebook) (objs : list Obj.t)
  (utts : list string) (obj : Obj.t) (utt : string) (alpha : R) :
  no_vacuous_utterance objs utts -> (nb = intro -> 0 < alpha) ->
  In utt utts ->
  0 < Rsum (map (weight alpha) (utilities nb objs utts obj)) ->
  speaker_prob nb objs utts alpha obj utt
  = Finite (weight alpha (utility nb objs utt obj)
            / Rsum (map (weight alpha) (utilities nb objs utts obj))).
Proof.
  intros Hnv Halpha Hutt Hsum. unfold speaker_prob.
  rewrite (speaker_weights_real nb objs utts obj alpha Hnv Halpha).
  rewrite np_sum_finite.
  rewrite (speaker_weight_real nb objs utt obj alpha (Hnv utt Hutt) Halpha).
  apply fdiv_finite. lra.
Qed.

Lemma listener_run_row (nb : notebook) (objs : list Obj.t)
  (utts : list string) (utt : string) :
  well_formed objs utts -> In utt utts ->
  exists df,
    run nb objs utts (PragmaticListener utt) =
      Ok (df, {| values := normalize_row (listener_weights nb objs utts utt);
                 labels := map Obj.string objs;
                 name := utt |}).
Proof.
  intros Hwf Hin.
  rewrite (run_Arr2 _ _ _ _ _ (listener_before_formula nb objs utts utt Hwf)).
  cbv zeta. unfold loc. cbn [index data columns key row_labels column_labels].
  destruct (position_In _ _ Hin) as [i Hi]. rewrite Hi. cbn [bind].
  eexists. do 3 f_equal. rewrite nth_normalize.
  now rewrite (nth_position_map _ _ _ _ _ Hi).
Qed.

(** X17.  Where every utterance is true of some object, the listener of
    the expository notebook never returns a zero: for every registered
    utterance it returns one number per object, each of them strictly
    positive and at most one. *)
Theorem tutorial_listener_never_zero (objs : list Obj.t)
  (utts : list string) (utt : string) :
  well_formed objs utts -> no_vacuous_utterance objs utts -> In utt utts ->
  exists df probs,
    Tutorial.pragmatic_listener objs utts utt = Ok (df, probs) /\
    List.length (values probs) = List.length objs /\
    Forall (fun v => positive v /\ probability v) (values probs).
Proof.
  intros Hwf Hnv Hutt.
  assert (Hutts : utts <> []) by apply Hwf.
  destruct (listener_run_row tutorial objs utts utt Hwf Hutt) as [df Hrun].
  cbn [run] in Hrun. rewrite Hrun. eexists _, _. split; [reflexivity|].
  cbn [values].
  set (g := fun o =>
         weight 1 (utility tutorial objs utt o)
         / Rsum (map (weight 1) (utilities tutorial objs utts o))
         + Tutorial.listener_epsilon).
  assert (Hg : forall o, 0 < g o).
  { intros o. unfold g.
    assert (0 < Rsum (map (weight 1) (utilities tutorial objs utts o)))
      by now apply Rsum_weights_pos, tutorial_utilities_some.
    assert (0 < weight 1 (utility tutorial objs utt o)) by apply exp_pos.
    assert (0 < weight 1 (utility tutorial objs utt o)
                / Rsum (map (weight 1) (utilities tutorial objs utts o)))
      by now apply Rdiv_lt_0_compat.
    pose proof listener_epsilon_pos. lra. }
  assert (Hws : listener_weights tutorial objs utts utt
                = map Finite (map g objs)).
  { unfold listener_weights. rewrite map_map. apply map_ext. intros o.
    rewrite (speaker_prob_real tutorial objs utts o utt 1 Hnv);
      [reflexivity|discriminate|assumption|].
    now apply Rsum_weights_pos, tutorial_utilities_some. }
  rewrite Hws.
  assert (Hnn : Forall (fun x => 0 <= x) (map g objs)).
  { apply Forall_map, Forall_forall. intros o _. left. apply Hg. }
  assert (Hobjs : objs <> []) by apply Hwf.
  assert (Hsum : 0 < Rsum (map g objs)).
  { apply Rsum_pos; [assumption|].
    destruct objs as [|o objs']; [congruence|]. left.
    pose proof (Hg o). lra. }
  rewrite normalize_row_finite by lra. unfold normalized.
  rewrite !length_map. split; [reflexivity|].
  rewrite map_map. apply Forall_map, Forall_forall. intros o Ho.
  cbn [positive probability].
  assert (H : 0 < g o / Rsum (map g objs) <= 1).
  { apply unit_interval_positive; [assumption| |apply Hg].
    now apply in_map. }
  lra.
Qed.

Lemma tutorial_listener_never_zero_witness :
  well_formed objects_triangle utterances /\
  no_vacuous_utterance objects_triangle utterances /\
  In "circle" utterances /\
  exists df probs,
    Tutorial.pragmatic_listener objects_triangle utterances "circle"
      = Ok (df, probs) /\
    List.length (values probs) = List.length objects_triangle /\
    Forall (fun v => positive v /\ probability v) (values probs).
Proof.
  assert (Hin : In "circle" utterances) by (simpl; tauto).
  split; [exact triangle_well_formed|]. split; [exact triangle_no_vacuous|].
  split; [exact Hin|].
  exact (tutorial_listener_never_zero objects_triangle utterances "circle"
           triangle_well_formed triangle_no_vacuous Hin).
Defined.

(** X18.  Where every utterance is true of some object and some utterance
    is true of every object, the listener of [intro-to-rsa.ipynb] returns,
    for a registered utterance, one number per object, each between zero
    and one, and exactly zero for precisely the objects the utterance is
    false of: pragmatic inference never revives an object that the literal
    meaning excludes. *)
Theorem intro_listener_support (objs : list Obj.t) (utts : list string)
  (utt : string) :
  well_formed objs utts -> no_vacuous_utterance objs utts ->
  (forall obj, In obj objs -> exists u, In u utts /\ meaning obj u = true) ->
  In utt utts ->
  exists df probs,
    Intro.pragmatic_listener objs utts utt = Ok (df, probs) /\
    Forall2 (fun obj v =>
               probability v /\ (v = Finite 0 <-> meaning obj utt = false))
            objs (values probs).
Proof.
  intros Hwf Hnv Hdesc Hutt.
  destruct (listener_run_row intro objs utts utt Hwf Hutt) as [df Hrun].
  cbn [run] in Hrun. rewrite Hrun. eexists _, _. split; [reflexivity|].
  cbn [values].
  set (g := fun o =>
         weight 1 (utility intro objs utt o)
         / Rsum (map (weight 1) (utilities intro objs utts o))).
  assert (Hsumo : forall o, In o objs ->
            0 < Rsum (map (weight 1) (utilities intro objs utts o))).
  { intros o Ho. now apply Rsum_weights_pos, intro_utilities_some, Hdesc. }
  assert (Hg : forall o, In o objs ->
            0 <= g o /\ (g o = 0 <-> meaning o utt = false)).
  { intros o Ho. pose proof (Hsumo o Ho) as Hs. unfold g.
    cbn [utility]. destruct (meaning o utt); cbn [weight].
    - pose proof (exp_pos (1 * ln (literal_real objs utt o))) as He.
      assert (0 < exp (1 * ln (literal_real objs utt o))
                  / Rsum (map (weight 1) (utilities intro objs utts o)))
        by now apply Rdiv_lt_0_compat.
      split; [lra|]. split; [lra|discriminate].
    - unfold Rdiv. rewrite Rmult_0_l. split; [lra|]. tauto. }
  assert (Hws : listener_weights intro objs utts utt
                = map Finite (map g objs)).
  { unfold listener_weights. rewrite map_map. apply map_ext_in. intros o Ho.
    cbn [listener_weight].
    apply (speaker_prob_real intro objs utts o utt 1 Hnv);
      [intros _; lra|assumption|now apply Hsumo]. }
  rewrite Hws.
  assert (Hnn : Forall (fun x => 0 <= x) (map g objs)).
  { apply Forall_map, Forall_forall. intros o Ho. now apply Hg. }
  assert (Hsum : 0 < Rsum (map g objs)).
  { apply Rsum_pos; [assumption|].
    destruct (Hnv utt Hutt) as (o & Ho & Hm).
    apply Exists_exists. exists (g o). split; [now apply in_map|].
    intros H0. apply (Hg o Ho) in H0. congruence. }
  rewrite normalize_row_finite by lra. unfold normalized. rewrite map_map.
  apply Forall2_map_in. intros o Ho. split.
  - pose proof (normalized_probability _ Hnn Hsum) as Hp.
    unfold normalized in Hp. rewrite map_map in Hp.
    rewrite Forall_map, Forall_forall in Hp. exact (Hp o Ho).
  - destruct (Hg o Ho) as [Hge Hiff]. split.
    + intros [= H]. apply Hiff.
      apply (Rmult_eq_compat_r (Rsum (map g objs))) in H.
      unfold Rdiv in H. rewrite Rmult_assoc, Rinv_l in H by lra. lra.
    + intros Hm. apply Hiff in Hm. rewrite Hm. f_equal. unfold Rdiv. lra.
Qed.

Lemma intro_listener_support_witness :
  well_formed objects utterances /\ no_vacuous_utterance objects utterances /\
  (forall obj, In obj objects ->
     exists u, In u utterances /\ meaning obj u = true) /\
  In "square" utterances /\
  exists df probs,
    Intro.pragmatic_listener objects utterances "square" = Ok (df, probs) /\
    Forall2 (fun obj v =>
               probability v /\
               (v = Finite 0 <-> meaning obj "square" = false))
            objects (values probs).
Proof.
  assert (Hdesc : forall obj, In obj objects ->
            exists u, In u utterances /\ meaning obj u = true).
  { intros obj [<-|[<-|[<-|[]]]].
    - exists "blue". split; [now left|reflexivity].
    - exists "blue". split; [now left|reflexivity].
    - exists "green". split; [simpl; tauto|reflexivity]. }
  assert (Hin : In "square" utterances) by (simpl; tauto).
  split; [exact canonical_well_formed|]. split; [exact canonical_no_vacuous|].
  split; [exact Hdesc|]. split; [exact Hin|].
  exact (intro_listener_support objects utterances "square"
           canonical_well_formed canonical_no_vacuous Hdesc Hin).
Defined.

(** X19.  In [intro-to-rsa.ipynb] one registered object that no utterance
    is true of spoils the pragmatic listener: for every registered
    utterance the row returned and the whole table hold NaN in every
    position (every utterance being true of some other object). *)
Theorem undescribed_object_poisons_listener (objs : list Obj.t)
  (utts : list string) (obj : Obj.t) (utt : string) :
  well_formed objs utts -> no_vacuous_utterance objs utts ->
  In obj objs -> (forall u, In u utts -> meaning obj u = false) ->
  In utt utts ->
  exists df probs,
    Intro.pragmatic_listener objs utts utt = Ok (df, probs) /\
    Forall (eq NaN) (values probs) /\ In NaN (values probs) /\
    Forall (Forall (eq NaN)) (data df).
Proof.
  intros Hwf Hnv Hobj Hfalse Hutt.
  assert (Hutts : utts <> []) by apply Hwf.
  assert (Hsp : forall u, In u utts ->
            speaker_prob intro objs utts 1 obj u = NaN).
  { intros u Hu.
    assert (Hws : speaker_weights intro objs utts 1 obj
                  = map (fun _ => speaker_weight intro 1 (Finite 0)) utts).
    { unfold speaker_weights. apply map_ext_in. intros u' Hu'.
      rewrite (literal_prob_real objs u' obj (Hnv u' Hu')).
      unfold literal_real. now rewrite (Hfalse u' Hu'). }
    pose proof (normalize_constant_degenerate
                  (speaker_weight intro 1 (Finite 0)) utts Hutts
                  (intro_weight_of_zero 1)) as Hn.
    rewrite <- Hws, normalize_speaker_weights in Hn.
    assert (Hnth : In (speaker_prob intro objs utts 1 obj u)
                      (map (speaker_prob intro objs utts 1 obj) utts))
      by now apply in_map.
    rewrite Hn in Hnth. apply in_map_iff in Hnth.
    now destruct Hnth as (_ & <- & _). }
  apply (poisoned_run intro objs utts (PragmaticListener utt) _
           (listener_before_formula intro objs utts utt Hwf)).
  - cbn [row_labels]. now rewrite length_map.
  - apply Forall_map, Forall_forall. intros u Hu.
    unfold listener_weights. apply in_map_iff. exists obj.
    split; [|assumption]. cbn [listener_weight]. now apply Hsp.
  - assumption.
Qed.

Lemma undescribed_object_poisons_listener_witness :
  well_formed objects_triangle utterances /\
  no_vacuous_utterance objects_triangle utterances /\
  In red_triangle objects_triangle /\
  (forall u, In u utterances -> meaning red_triangle u = false) /\
  In "blue" utterances /\
  exists df probs,
    Intro.pragmatic_listener objects_triangle utterances "blue"
      = Ok (df, probs) /\
    Forall (eq NaN) (values probs) /\ In NaN (values probs) /\
    Forall (Forall (eq NaN)) (data df).
Proof.
  assert (Hin : In red_triangle objects_triangle) by (simpl; tauto).
  assert (Hutt : In "blue" utterances) by (simpl; tauto).
  split; [exact triangle_well_formed|]. split; [exact triangle_no_vacuous|].
  split; [exact Hin|]. split; [exact triangle_undescribed|].
  split; [exact Hutt|].
  exact (undescribed_object_poisons_listener objects_triangle utterances
           red_triangle "blue" triangle_well_formed triangle_no_vacuous Hin
           triangle_undescribed Hutt).
Defined.
